(** * Design-AI: the session controller (App) and the chat interface

    A shallow embedding of the state-handling code of the front end: the
    handlers of the [App] component (image ingestion, removal, generation,
    chat, preferences) and the logic of [ChatInterface] (classification of
    an input, parsing of a message), followed by the properties proved of
    them.

    - A JavaScript string is its sequence of UTF-16 code units, [list N].
    - [Record<number, string>] is a finite map [gmap nat _]; [Object.keys]
      lists integer keys in ascending order.
    - The [useState] cells of the component are the fields of one record
      [State]; a setter is a function on that record.
    - An async handler runs on a [World]: the state, the log of what it
      did, and the number of calls it issued.  The remote service is an
      oracle that says, for the n-th call of a handler, whether the call
      resolves, and with which payload, or rejects.
    - The file has three parts: the program, the vocabulary of the
      statements, the properties. *)

From Stdlib Require Import NArith Ascii String DecimalString DecimalNat DecimalFacts.
From stdpp Require Import gmap list sorting fin_maps.
From Equations Require Import Equations.

Local Open Scope nat_scope.

(** ** JavaScript strings *)

Abbreviation jsstring := (list N) (only parsing).

(** A string literal of the source, as code units (the literals of the
    source are ASCII). *)
Definition js (s : string) : jsstring :=
  map N_of_ascii (list_ascii_of_string s).
Arguments js : simpl never.

(** Truthiness of a string: only the empty string is falsy. *)
Definition truthy (s : jsstring) : bool :=
  match s with [] => false | _ :: _ => true end.

(** Truthiness of [string | null | undefined]. *)
Definition truthy_opt (o : option jsstring) : bool :=
  match o with Some s => truthy s | None => false end.

(** ** types.ts and the state of App *)

Inductive AppState := initial | generating | ready.
Inductive ChatMode := design | general.
Inductive ImageQuality := standard | high.
Inductive Role := user | model.

(** [id_] is the [id] field ([Date.now()] as a number; its rendering as a
    decimal string is left out). *)
Record ChatMessage := {
  id_ : nat;
  role : Role;
  text : jsstring
}.

Record State := {
  originalImages : list jsstring;
  generatedImages : gmap nat jsstring;
  selectedResultIndex : option nat;
  appState : AppState;
  generationProgress : option (nat * nat);
  selectedStyle : option jsstring;
  selectedColorPalette : option jsstring;
  selectedAtmosphere : option jsstring;
  selectedQuality : ImageQuality;
  error : option jsstring;
  chatMessages : list ChatMessage;
  isChatLoading : bool;
  chatMode : ChatMode;
  showProcess : bool
}.

(** The values of the [useState] initialisers. *)
Definition initialState : State := {|
  originalImages := [];
  generatedImages := ∅;
  selectedResultIndex := None;
  appState := initial;
  generationProgress := None;
  selectedStyle := None;
  selectedColorPalette := None;
  selectedAtmosphere := None;
  selectedQuality := standard;
  error := None;
  chatMessages := [];
  isChatLoading := false;
  chatMode := design;
  showProcess := true
|}.

(** The state setters ([setX(v)] is [setX (fun _ => v)]). *)
Definition setOriginalImages (f : list jsstring → list jsstring) (st : State) : State :=
  {| originalImages := f (originalImages st); generatedImages := generatedImages st;
     selectedResultIndex := selectedResultIndex st; appState := appState st;
     generationProgress := generationProgress st; selectedStyle := selectedStyle st;
     selectedColorPalette := selectedColorPalette st;
     selectedAtmosphere := selectedAtmosphere st; selectedQuality := selectedQuality st;
     error := error st; chatMessages := chatMessages st; isChatLoading := isChatLoading st;
     chatMode := chatMode st; showProcess := showProcess st |}.

Definition setGeneratedImages (f : gmap nat jsstring → gmap nat jsstring) (st : State) : State :=
  {| originalImages := originalImages st; generatedImages := f (generatedImages st);
     selectedResultIndex := selectedResultIndex st; appState := appState st;
     generationProgress := generationProgress st; selectedStyle := selectedStyle st;
     selectedColorPalette := selectedColorPalette st;
     selectedAtmosphere := selectedAtmosphere st; selectedQuality := selectedQuality st;
     error := error st; chatMessages := chatMessages st; isChatLoading := isChatLoading st;
     chatMode := chatMode st; showProcess := showProcess st |}.

Definition setSelectedResultIndex (v : option nat) (st : State) : State :=
  {| originalImages := originalImages st; generatedImages := generatedImages st;
     selectedResultIndex := v; appState := appState st;
     generationProgress := generationProgress st; selectedStyle := selectedStyle st;
     selectedColorPalette := selectedColorPalette st;
     selectedAtmosphere := selectedAtmosphere st; selectedQuality := selectedQuality st;
     error := error st; chatMessages := chatMessages st; isChatLoading := isChatLoading st;
     chatMode := chatMode st; showProcess := showProcess st |}.

Definition setAppState (v : AppState) (st : State) : State :=
  {| originalImages := originalImages st; generatedImages := generatedImages st;
     selectedResultIndex := selectedResultIndex st; appState := v;
     generationProgress := generationProgress st; selectedStyle := selectedStyle st;
     selectedColorPalette := selectedColorPalette st;
     selectedAtmosphere := selectedAtmosphere st; selectedQuality := selectedQuality st;
     error := error st; chatMessages := chatMessages st; isChatLoading := isChatLoading st;
     chatMode := chatMode st; showProcess := showProcess st |}.

Definition setGenerationProgress (v : option (nat * nat)) (st : State) : State :=
  {| originalImages := originalImages st; generatedImages := generatedImages st;
     selectedResultIndex := selectedResultIndex st; appState := appState st;
     generationProgress := v; selectedStyle := selectedStyle st;
     selectedColorPalette := selectedColorPalette st;
     selectedAtmosphere := selectedAtmosphere st; selectedQuality := selectedQuality st;
     error := error st; chatMessages := chatMessages st; isChatLoading := isChatLoading st;
     chatMode := chatMode st; showProcess := showProcess st |}.

Definition setSelectedStyle (v : option jsstring) (st : State) : State :=
  {| originalImages := originalImages st; generatedImages := generatedImages st;
     selectedResultIndex := selectedResultIndex st; appState := appState st;
     generationProgress := generationProgress st; selectedStyle := v;
     selectedColorPalette := selectedColorPalette st;
     selectedAtmosphere := selectedAtmosphere st; selectedQuality := selectedQuality st;
     error := error st; chatMessages := chatMessages st; isChatLoading := isChatLoading st;
     chatMode := chatMode st; showProcess := showProcess st |}.

Definition setSelectedColorPalette (v : option jsstring) (st : State) : State :=
  {| originalImages := originalImages st; generatedImages := generatedImages st;
     selectedResultIndex := selectedResultIndex st; appState := appState st;
     generationProgress := generationProgress st; selectedStyle := selectedStyle st;
     selectedColorPalette := v;
     selectedAtmosphere := selectedAtmosphere st; selectedQuality := selectedQuality st;
     error := error st; chatMessages := chatMessages st; isChatLoading := isChatLoading st;
     chatMode := chatMode st; showProcess := showProcess st |}.

Definition setSelectedAtmosphere (v : option jsstring) (st : State) : State :=
  {| originalImages := originalImages st; generatedImages := generatedImages st;
     selectedResultIndex := selectedResultIndex st; appState := appState st;
     generationProgress := generationProgress st; selectedStyle := selectedStyle st;
     selectedColorPalette := selectedColorPalette st;
     selectedAtmosphere := v; selectedQuality := selectedQuality st;
     error := error st; chatMessages := chatMessages st; isChatLoading := isChatLoading st;
     chatMode := chatMode st; showProcess := showProcess st |}.

Definition setSelectedQuality (v : ImageQuality) (st : State) : State :=
  {| originalImages := originalImages st; generatedImages := generatedImages st;
     selectedResultIndex := selectedResultIndex st; appState := appState st;
     generationProgress := generationProgress st; selectedStyle := selectedStyle st;
     selectedColorPalette := selectedColorPalette st;
     selectedAtmosphere := selectedAtmosphere st; selectedQuality := v;
     error := error st; chatMessages := chatMessages st; isChatLoading := isChatLoading st;
     chatMode := chatMode st; showProcess := showProcess st |}.

Definition setError (v : option jsstring) (st : State) : State :=
  {| originalImages := originalImages st; generatedImages := generatedImages st;
     selectedResultIndex := selectedResultIndex st; appState := appState st;
     generationProgress := generationProgress st; selectedStyle := selectedStyle st;
     selectedColorPalette := selectedColorPalette st;
     selectedAtmosphere := selectedAtmosphere st; selectedQuality := selectedQuality st;
     error := v; chatMessages := chatMessages st; isChatLoading := isChatLoading st;
     chatMode := chatMode st; showProcess := showProcess st |}.

Definition setChatMessages (f : list ChatMessage → list ChatMessage) (st : State) : State :=
  {| originalImages := originalImages st; generatedImages := generatedImages st;
     selectedResultIndex := selectedResultIndex st; appState := appState st;
     generationProgress := generationProgress st; selectedStyle := selectedStyle st;
     selectedColorPalette := selectedColorPalette st;
     selectedAtmosphere := selectedAtmosphere st; selectedQuality := selectedQuality st;
     error := error st; chatMessages := f (chatMessages st);
     isChatLoading := isChatLoading st;
     chatMode := chatMode st; showProcess := showProcess st |}.

Definition setIsChatLoading (v : bool) (st : State) : State :=
  {| originalImages := originalImages st; generatedImages := generatedImages st;
     selectedResultIndex := selectedResultIndex st; appState := appState st;
     generationProgress := generationProgress st; selectedStyle := selectedStyle st;
     selectedColorPalette := selectedColorPalette st;
     selectedAtmosphere := selectedAtmosphere st; selectedQuality := selectedQuality st;
     error := error st; chatMessages := chatMessages st; isChatLoading := v;
     chatMode := chatMode st; showProcess := showProcess st |}.

Definition setChatMode (v : ChatMode) (st : State) : State :=
  {| originalImages := originalImages st; generatedImages := generatedImages st;
     selectedResultIndex := selectedResultIndex st; appState := appState st;
     generationProgress := generationProgress st; selectedStyle := selectedStyle st;
     selectedColorPalette := selectedColorPalette st;
     selectedAtmosphere := selectedAtmosphere st; selectedQuality := selectedQuality st;
     error := error st; chatMessages := chatMessages st; isChatLoading := isChatLoading st;
     chatMode := v; showProcess := showProcess st |}.

Definition setShowProcess (v : bool) (st : State) : State :=
  {| originalImages := originalImages st; generatedImages := generatedImages st;
     selectedResultIndex := selectedResultIndex st; appState := appState st;
     generationProgress := generationProgress st; selectedStyle := selectedStyle st;
     selectedColorPalette := selectedColorPalette st;
     selectedAtmosphere := selectedAtmosphere st; selectedQuality := selectedQuality st;
     error := error st; chatMessages := chatMessages st; isChatLoading := isChatLoading st;
     chatMode := chatMode st; showProcess := v |}.

(** ** handleRemoveImage *)

(** [Array.prototype.filter] with the two-argument callback
    [(element, index) => ...]; [i] is the index of the head of [l]. *)
Fixpoint Array_filter {A} (p : A → nat → bool) (i : nat) (l : list A) : list A :=
  match l with
  | [] => []
  | x :: l' => if p x i then x :: Array_filter p (S i) l' else Array_filter p (S i) l'
  end.

(** [Object.keys] of an object whose own keys are integer indices: the keys,
    in ascending numeric order, taken once before the iteration starts. *)
Definition Object_keys {A} (o : gmap nat A) : list nat :=
  merge_sort (≤) (elements (dom o)).

(** The body of the [forEach] callback.  Reading [newGenerated[key]] of a
    missing property gives [undefined]; the model identifies a property
    holding [undefined] with an absent one. *)
Definition shiftKey {A} (indexToRemove : nat) (newGenerated : gmap nat A) (key : nat)
  : gmap nat A :=
  if indexToRemove <? key
  then delete key (partial_alter (fun _ => newGenerated !! key) (key - 1) newGenerated)
  else newGenerated.

(** The updater passed to [setGeneratedImages]. *)
Definition removeGenerated {A} (indexToRemove : nat) (current : gmap nat A) : gmap nat A :=
  let newGenerated := delete indexToRemove current in
  foldl (shiftKey indexToRemove) newGenerated (Object_keys newGenerated).

(** The [if / else if] on [selectedResultIndex]; [null === n] is false and
    [null && _] is falsy, and so is [0 && _]. *)
Definition removeSelection (indexToRemove : nat) (sel : option nat) : option nat :=
  match sel with
  | Some s =>
      if s =? indexToRemove then None
      else if negb (s =? 0) && (indexToRemove <? s) then Some (s - 1)
      else Some s
  | None => None
  end.

Definition handleRemoveImage (indexToRemove : nat) (st : State) : State :=
  let st := setOriginalImages
              (Array_filter (fun _ index => negb (index =? indexToRemove)) 0) st in
  let st := setGeneratedImages (removeGenerated indexToRemove) st in
  setSelectedResultIndex (removeSelection indexToRemove (selectedResultIndex st)) st.

(** ** resetGenerationState and processFiles *)

Definition resetGenerationState (st : State) : State :=
  let st := setGeneratedImages (fun _ => ∅) st in
  let st := setAppState initial st in
  let st := setError None st in
  let st := setChatMessages (fun _ => []) st in
  let st := setSelectedResultIndex None st in
  setShowProcess true st.

(** A [File]: its MIME type, and what [FileReader.readAsDataURL] ends with,
    [Some] data URL ([onload]) or [None] ([onerror]). *)
Record File := {
  type : jsstring;
  readAsDataURL : option jsstring
}.

(** [String.prototype.startsWith]. *)
Fixpoint startsWith (s searchString : jsstring) {struct searchString} : bool :=
  match searchString, s with
  | [], _ => true
  | _ :: _, [] => false
  | c :: searchString', d :: s' => (d =? c)%N && startsWith s' searchString'
  end.

(** [Promise.all]: resolves with all the values, in order, when every
    promise resolves, and rejects as soon as one of them rejects. *)
Fixpoint Promise_all {A} (promises : list (option A)) : option (list A) :=
  match promises with
  | [] => Some []
  | p :: promises' =>
      match p, Promise_all promises' with
      | Some x, Some xs => Some (x :: xs)
      | _, _ => None
      end
  end.

Definition processFiles (files : option (list File)) (st : State) : State :=
  match files with
  | Some files =>
      if 0 <? length files then
        let imageFiles := List.filter (fun file => startsWith (type file) (js "image/")) files in
        if length imageFiles =? 0 then st
        else
          match Promise_all (map readAsDataURL imageFiles) with
          | Some newImages =>
              let updatedImages := originalImages st ++ newImages in
              resetGenerationState (setOriginalImages (fun _ => updatedImages) st)
          | None =>
              setError (Some (js "There was an error processing some of your images.")) st
          end
      else st
  | None => st
  end.

(** ** Preferences *)

(** The record that [handleSavePreferences] serialises.  A field is [None]
    when it is [null] or missing. *)
Record Prefs := {
  style : option jsstring;
  colorPalette : option jsstring;
  atmosphere : option jsstring;
  quality : option ImageQuality
}.

(** The item stored under [PREFERENCES_KEY], as [JSON.parse] reads it back:
    a text it throws on, or the record of the fields (at the types the
    component declares for them).  [JSON.stringify] followed by
    [JSON.parse] is the identity on such a record. *)
Inductive StoredItem :=
| Unparseable
| Parsed (savedPrefs : Prefs).

(** [localStorage], restricted to [PREFERENCES_KEY]; [None] is what
    [getItem] returns as [null]. *)
Abbreviation Storage := (option StoredItem) (only parsing).

(** The [useEffect] that runs once when the component mounts. *)
Definition loadPreferences (localStorage : Storage) (st : State) : State :=
  match localStorage with
  | Some (Parsed savedPrefs) =>
      let st := if truthy_opt (style savedPrefs)
                then setSelectedStyle (style savedPrefs) st else st in
      let st := if truthy_opt (colorPalette savedPrefs)
                then setSelectedColorPalette (colorPalette savedPrefs) st else st in
      let st := if truthy_opt (atmosphere savedPrefs)
                then setSelectedAtmosphere (atmosphere savedPrefs) st else st in
      match quality savedPrefs with
      | Some q => setSelectedQuality q st
      | None => st
      end
  | Some Unparseable => st
  | None => st
  end.

(** The state is not changed by saving (the two-second feedback flag is
    not part of the model); the result is the new storage. *)
Definition handleSavePreferences (st : State) : Storage :=
  let prefs := {| style := selectedStyle st;
                  colorPalette := selectedColorPalette st;
                  atmosphere := selectedAtmosphere st;
                  quality := Some (selectedQuality st) |} in
  Some (Parsed prefs).

Definition handleClearPreferences (st : State) : Storage * State :=
  let st := setSelectedStyle None st in
  let st := setSelectedColorPalette None st in
  let st := setSelectedAtmosphere None st in
  let st := setSelectedQuality standard st in
  (None, st).

(** ** The remote service and asynchronous handlers *)

(** The calls of services/geminiService. *)
Inductive call :=
| generateImageWithStyle (image style : jsstring)
    (colorPalette atmosphere : option jsstring) (quality : ImageQuality)
| applyStyleFromReference (image referenceImage : jsstring) (quality : ImageQuality)
| refineImageWithText (baseImage instruction : jsstring) (quality : ImageQuality)
| getChatResponse (message : jsstring)
| getShoppingSuggestions (baseImage message : jsstring).

(** What a handler does that the claims speak about, in the order it does it. *)
Inductive event :=
| Progress (p : option (nat * nat))      (* setGenerationProgress(p) *)
| Issue (c : call)                       (* a call to the service starts *)
| Commit (index : nat) (image : jsstring) (* setGeneratedImages puts image at index *)
| Append (m : ChatMessage).              (* setChatMessages appends m *)

(** The service: what the [n]-th call issued by the running handler does,
    resolve with a payload or reject. *)
Abbreviation Service := (nat → call → option jsstring) (only parsing).

Record World := {
  ui : State;
  log : list event;
  issued : nat
}.

Definition start (st : State) : World := {| ui := st; log := []; issued := 0 |}.

(** An async function body: it runs on the world and completes normally
    with a value or abruptly (a rejected [await]). *)
Definition Async (A : Type) : Type := World → World * option A.

Definition ret {A} (x : A) : Async A := fun w => (w, Some x).

Definition bind {A B} (m : Async A) (f : A → Async B) : Async B :=
  fun w => match m w with
           | (w', Some x) => f x w'
           | (w', None) => (w', None)
           end.

Declare Scope async_scope.
Delimit Scope async_scope with async.
Notation "x ← y ; z" := (bind y (fun x => z))
  (at level 20, y at level 100, z at level 200, only parsing) : async_scope.
Notation "x ;; z" := (bind x (fun _ => z))
  (at level 100, z at level 200, only parsing, right associativity) : async_scope.
Local Open Scope async_scope.

Definition update (f : State → State) : Async unit :=
  fun w => ({| ui := f (ui w); log := log w; issued := issued w |}, Some tt).

Definition emit (e : event) : Async unit :=
  fun w => ({| ui := ui w; log := log w ++ [e]; issued := issued w |}, Some tt).

(** [try { body } catch (err) { handler } finally { finalizer }]. *)
Definition try_catch_finally (body handler finalizer : Async unit) : Async unit :=
  fun w => match body w with
           | (w', Some _) => finalizer w'
           | (w', None) => (handler ;; finalizer) w'
           end.

(** [for (let i = from; i < from + count; i++) body(i)]. *)
Fixpoint for_range (from count : nat) (body : nat → Async unit) : Async unit :=
  match count with
  | 0 => ret tt
  | S count' => body from ;; for_range (S from) count' body
  end.

Definition progress (p : option (nat * nat)) : Async unit :=
  update (setGenerationProgress p) ;; emit (Progress p).

Definition append (m : ChatMessage) : Async unit :=
  update (setChatMessages (fun prev => prev ++ [m])) ;; emit (Append m).

Section Handlers.

Variable service : Service.

(** [await call]: the call is issued, and the handler resumes with its
    outcome. *)
Definition await (c : call) : Async jsstring :=
  fun w => ({| ui := ui w; log := log w ++ [Issue c]; issued := S (issued w) |},
            service (issued w) c).

(** *** handleGenerateClick *)

(** [st] holds the values the callback closes over; it is the state of the
    world the handler starts in. *)
Definition handleGenerateClick : Async unit := fun w =>
  let st := ui w in
  let originalImages := originalImages st in
  let total := length originalImages in
  match selectedStyle st with
  | Some selectedStyle =>
      if (total =? 0) || negb (truthy selectedStyle) then ret tt w
      else
       (update (setAppState generating) ;;
        update (setError None) ;;
        update (setGeneratedImages (fun _ => ∅)) ;;
        update (setChatMessages (fun _ => [])) ;;
        update (setChatMode design) ;;
        update (setSelectedResultIndex None) ;;
        try_catch_finally
          ((if total =? 1 then
              progress (Some (1, 1)) ;;
              image ← await (generateImageWithStyle (originalImages !!! 0) selectedStyle
                               (selectedColorPalette st) (selectedAtmosphere st)
                               (selectedQuality st));
              update (setGeneratedImages (fun _ => {[ 0 := image ]})) ;;
              emit (Commit 0 image)
            else
              progress (Some (1, total)) ;;
              referenceImage ← await (generateImageWithStyle (originalImages !!! 0)
                                        selectedStyle (selectedColorPalette st)
                                        (selectedAtmosphere st) (selectedQuality st));
              update (setGeneratedImages (fun prev => <[ 0 := referenceImage ]> prev)) ;;
              emit (Commit 0 referenceImage) ;;
              for_range 1 (total - 1) (fun i =>
                progress (Some (i + 1, total)) ;;
                styledImage ← await (applyStyleFromReference (originalImages !!! i)
                                       referenceImage (selectedQuality st));
                update (setGeneratedImages (fun prev => <[ i := styledImage ]> prev)) ;;
                emit (Commit i styledImage))) ;;
           update (setAppState ready))
          (update (setError (Some (js "Failed to generate all images. Please try again."))) ;;
           update (setAppState initial))
          (progress None)) w
  | None => ret tt w
  end.

(** *** handleSendMessage *)

Definition acknowledgement : jsstring :=
  js "I've updated the selected design. What do you think?".

Definition errorText : jsstring :=
  js "Sorry, I couldn't process that request. Please try again.".

(** [now] and [later] are the two readings of [Date.now()], when the user
    message and when the model message is built. *)
Definition handleSendMessage (now later : nat)
    (message : jsstring) (isShoppingQuery : bool) : Async unit := fun w =>
  let st := ui w in
  match selectedResultIndex st with
  | None => ret tt w
  | Some selectedResultIndex =>
     (let newUserMessage := {| id_ := now; role := user; text := message |} in
      append newUserMessage ;;
      update (setIsChatLoading true) ;;
      update (setError None) ;;
      let baseImage := generatedImages st !! selectedResultIndex in
      try_catch_finally
        (modelResponseText ←
           (match chatMode st, baseImage with
            | design, Some baseImage =>
                if truthy baseImage then
                  if isShoppingQuery then
                    await (getShoppingSuggestions baseImage message)
                  else
                    refinedImage ← await (refineImageWithText baseImage message
                                            (selectedQuality st));
                    update (setGeneratedImages
                              (fun prev => <[ selectedResultIndex := refinedImage ]> prev)) ;;
                    emit (Commit selectedResultIndex refinedImage) ;;
                    ret acknowledgement
                else await (getChatResponse message)
            | _, _ => await (getChatResponse message)
            end);
         let newModelMessage :=
           {| id_ := later + 1; role := model; text := modelResponseText |} in
         append newModelMessage)
        (let errorMessage := {| id_ := later + 1; role := model; text := errorText |} in
         append errorMessage)
        (update (setIsChatLoading false))) w
  end.

End Handlers.

(** ** ChatInterface: handleSubmit *)

(** WhiteSpace and LineTerminator code units, which [trim] strips. *)
Definition isWhiteSpace (c : N) : bool :=
  match c with
  | 9 | 10 | 11 | 12 | 13 | 32 | 160 | 5760
  | 8192 | 8193 | 8194 | 8195 | 8196 | 8197 | 8198 | 8199 | 8200 | 8201 | 8202
  | 8232 | 8233 | 8239 | 8287 | 12288 | 65279 => true
  | _ => false
  end%N.

Fixpoint trimStart (s : jsstring) : jsstring :=
  match s with
  | c :: s' => if isWhiteSpace c then trimStart s' else s
  | [] => []
  end.

(** [String.prototype.trim]. *)
Definition trim (s : jsstring) : jsstring := rev (trimStart (rev (trimStart s))).

(** [String.prototype.includes]. *)
Fixpoint includes (s searchString : jsstring) : bool :=
  startsWith s searchString
  || match s with
     | [] => false
     | _ :: s' => includes s' searchString
     end.

Definition shoppingKeywords : list jsstring :=
  [js "shop"; js "buy"; js "link"; js "find"; js "product"; js "item"].

Section ChatInterface.

(** [String.prototype.toLowerCase], the case mapping of the host. *)
Variable toLowerCase : jsstring → jsstring.

Definition isShoppingQuery (isDesignMode : bool) (input : jsstring) : bool :=
  isDesignMode
  && existsb (fun kw => includes (toLowerCase input) kw) shoppingKeywords.

(** [setInput('')] only concerns the text field of the form. *)
Definition handleSubmit (onSendMessage : jsstring → bool → Async unit)
    (isLoading isDesignMode : bool) (input : jsstring) : Async unit :=
  if truthy (trim input) && negb isLoading then
    onSendMessage input (isShoppingQuery isDesignMode input)
  else ret tt.

(** The form as App renders it:
    [onSendMessage={handleSendMessage} isLoading={isChatLoading}
     isDesignMode={chatMode === 'design'}]. *)
Definition submit (service : Service) (now later : nat) (input : jsstring) : Async unit :=
  fun w =>
    handleSubmit (handleSendMessage service now later)
      (isChatLoading (ui w))
      (match chatMode (ui w) with design => true | general => false end)
      input w.

End ChatInterface.

(** ** ChatInterface: ParsedMessage *)

(** Line terminators, which [.] does not match. *)
Definition isLineTerminator (c : N) : bool :=
  match c with
  | 10 | 13 | 8232 | 8233 => true
  | _ => false
  end%N.

(** The regular expressions built from literal text and the two capture
    groups over [.*], the lazy one and the greedy one. *)
Inductive token :=
| Lit (s : jsstring)
| LazyDots
| GreedyDots.

(** The pattern of the source: the literal [- **[], a lazy group, the
    literal [](], a lazy group, the literal [)** - ], a greedy group; with
    the [g] flag. *)
Definition shoppingLinkRegex : list token :=
  [Lit (js "- **["); LazyDots; Lit (js "]("); LazyDots; Lit (js ")** - "); GreedyDots].

(** A match of the rest of the pattern: the captured groups and the number
    of code units matched. *)
Abbreviation result := (option (list jsstring * nat)) (only parsing).

(** The lazy group followed by [rest]: the shortest run of non-terminators after
    which [rest] matches.  [taken] is the run consumed so far. *)
Fixpoint lazyDots (rest : jsstring → result) (taken s : jsstring) : result :=
  match rest s with
  | Some (groups, n) => Some (taken :: groups, length taken + n)
  | None =>
      match s with
      | c :: s' => if isLineTerminator c then None else lazyDots rest (taken ++ [c]) s'
      | [] => None
      end
  end.

(** The greedy group followed by [rest]: the longest such run. *)
Fixpoint greedyDots (rest : jsstring → result) (taken s : jsstring) : result :=
  let stop := match rest s with
              | Some (groups, n) => Some (taken :: groups, length taken + n)
              | None => None
              end in
  match s with
  | c :: s' =>
      if isLineTerminator c then stop
      else match greedyDots rest (taken ++ [c]) s' with
           | Some r => Some r
           | None => stop
           end
  | [] => stop
  end.

(** The backtracking match of a pattern at the start of [s]. *)
Fixpoint matchHere (pattern : list token) (s : jsstring) : result :=
  match pattern with
  | [] => Some ([], 0)
  | Lit l :: pattern' =>
      if startsWith s l then
        match matchHere pattern' (drop (length l) s) with
        | Some (groups, n) => Some (groups, length l + n)
        | None => None
        end
      else None
  | LazyDots :: pattern' => lazyDots (matchHere pattern') [] s
  | GreedyDots :: pattern' => greedyDots (matchHere pattern') [] s
  end.

(** The match object of [exec]: [match.index], the captured groups
    [match[1..]], and the [lastIndex] the regex is left with. *)
Record Match := {
  index : nat;
  groups : list jsstring;
  lastIndex : nat
}.

(** The leftmost match in [s], the suffix of the text that starts at [i]. *)
Fixpoint search (pattern : list token) (s : jsstring) (i : nat) : option Match :=
  match matchHere pattern s with
  | Some (groups, n) => Some {| index := i; groups := groups; lastIndex := i + n |}
  | None =>
      match s with
      | [] => None
      | _ :: s' => search pattern s' (S i)
      end
  end.

(** [regex.exec(text)] for a global regex whose [lastIndex] is [from]. *)
Definition exec (pattern : list token) (text : jsstring) (from : nat) : option Match :=
  if from <=? length text then search pattern (drop from text) from else None.

(** [String.prototype.substring] for [start <= end]. *)
Definition substring (s : jsstring) (start : nat) (end_ : option nat) : jsstring :=
  match end_ with
  | Some e => take (e - start) (drop start s)
  | None => drop start s
  end.

(** An element of [parts]: a string or a [<ShoppingItem>]. *)
Inductive part :=
| Str (s : jsstring)
| ShoppingItem (name url description : jsstring).

(** [const [_, name, url, description] = match]. *)
Definition shoppingItem (m : Match) : part :=
  ShoppingItem (default [] (groups m !! 0)) (default [] (groups m !! 1))
    (default [] (groups m !! 2)).

(** The loop over the matches ends because a match of [shoppingLinkRegex]
    is never empty and lies within the text: [exec] moves on each time. *)
Lemma startsWith_length (s l : jsstring) : startsWith s l = true → length l ≤ length s.
Proof.
  revert s. induction l as [|c l IH]; intros [|d s]; simpl; try done; try lia.
  intros [_ H]%andb_prop. apply IH in H. lia.
Qed.

Lemma lazyDots_length (rest : jsstring → result) (taken s : jsstring) gs n :
  (∀ s' gs' n', rest s' = Some (gs', n') → n' ≤ length s') →
  lazyDots rest taken s = Some (gs, n) → n ≤ length taken + length s.
Proof.
  intros Hrest. revert taken. induction s as [|c s IH]; intros taken; simpl.
  - destruct (rest []) as [[gs' n']|] eqn:E; [|done].
    intros [= <- <-]. apply Hrest in E. simpl in E. lia.
  - destruct (rest (c :: s)) as [[gs' n']|] eqn:E.
    + intros [= <- <-]. apply Hrest in E. simpl in E. lia.
    + destruct (isLineTerminator c); [done|].
      intros H. apply IH in H. rewrite length_app in H. simpl in H. lia.
Qed.

Lemma greedyDots_length (rest : jsstring → result) (taken s : jsstring) gs n :
  (∀ s' gs' n', rest s' = Some (gs', n') → n' ≤ length s') →
  greedyDots rest taken s = Some (gs, n) → n ≤ length taken + length s.
Proof.
  intros Hrest. revert taken. induction s as [|c s IH]; intros taken; simpl.
  - destruct (rest []) as [[gs' n']|] eqn:E; [|done].
    intros [= <- <-]. apply Hrest in E. simpl in E. lia.
  - assert (Hstop : match rest (c :: s) with
                    | Some (groups, n0) => Some (taken :: groups, length taken + n0)
                    | None => None
                    end = Some (gs, n) → n ≤ length taken + S (length s)).
    { destruct (rest (c :: s)) as [[gs' n']|] eqn:E; [|done].
      intros [= <- <-]. apply Hrest in E. simpl in E. lia. }
    destruct (isLineTerminator c); [done|].
    destruct (greedyDots rest (taken ++ [c]) s) as [r|] eqn:E; [|done].
    intros [= ->]. apply IH in E. rewrite length_app in E. simpl in E. lia.
Qed.

Lemma matchHere_length (pattern : list token) (s : jsstring) gs n :
  matchHere pattern s = Some (gs, n) → n ≤ length s.
Proof.
  revert s gs n. induction pattern as [|[l| |] pattern IH]; intros s gs n; simpl.
  - intros [= <- <-]. lia.
  - destruct (startsWith s l) eqn:Hl; [|done].
    destruct (matchHere pattern (drop (length l) s)) as [[gs' n']|] eqn:E; [|done].
    intros [= <- <-]. apply IH in E. rewrite length_drop in E.
    apply startsWith_length in Hl. lia.
  - intros H. apply lazyDots_length in H; [simpl in H; lia|]. intros ???. apply IH.
  - intros H. apply greedyDots_length in H; [simpl in H; lia|]. intros ???. apply IH.
Qed.

Lemma matchHere_shoppingLink_nonempty (s : jsstring) gs n :
  matchHere shoppingLinkRegex s = Some (gs, n) → 0 < n.
Proof.
  unfold shoppingLinkRegex. cbn [matchHere].
  destruct (startsWith s (js "- **[")); [|done].
  destruct (lazyDots _ _ _) as [[gs' n']|]; [|done].
  intros [= <- <-]. simpl. lia.
Qed.

Lemma search_bounds (s : jsstring) (i : nat) (m : Match) :
  search shoppingLinkRegex s i = Some m →
  i ≤ index m ∧ index m < lastIndex m ∧ lastIndex m ≤ i + length s.
Proof.
  revert i. induction s as [|c s IH]; intros i; cbn [search].
  - destruct (matchHere shoppingLinkRegex []) as [[gs n]|] eqn:E; [|done].
    intros [= <-]. simpl. pose proof (matchHere_shoppingLink_nonempty _ _ _ E).
    apply matchHere_length in E. simpl in E. lia.
  - destruct (matchHere shoppingLinkRegex (c :: s)) as [[gs n]|] eqn:E.
    + intros [= <-]. simpl. pose proof (matchHere_shoppingLink_nonempty _ _ _ E).
      apply matchHere_length in E. simpl in E. lia.
    + intros H. apply IH in H. simpl. lia.
Qed.

Lemma exec_bounds (text : jsstring) (from : nat) (m : Match) :
  exec shoppingLinkRegex text from = Some m →
  from ≤ index m ∧ index m < lastIndex m ∧ lastIndex m ≤ length text.
Proof.
  unfold exec. destruct (Nat.leb_spec from (length text)) as [Hle|Hgt]; [|done].
  intros Hs%search_bounds. rewrite length_drop in Hs. lia.
Qed.

(** A value together with the equation that says what it is the value of. *)
Definition inspect {A} (x : A) : {y : A | x = y} := exist _ x eq_refl.

(** The functions used in the loop are kept folded while it is defined. *)
Opaque exec substring shoppingItem.

(** The [while] loop over the matches, then the text left after the last
    one.  [from] is the local [lastIndex], equal to [regex.lastIndex]. *)
Equations? scan (text : jsstring) (from : nat) (parts : list part) : list part
  by wf (length text - from) lt :=
scan text from parts with inspect (exec shoppingLinkRegex text from) := {
  | exist _ (Some m) E =>
      scan text (lastIndex m)
        (parts
         ++ (if from <? index m then [Str (substring text from (Some (index m)))] else [])
         ++ [shoppingItem m]);
  | exist _ None E =>
      parts ++ (if from <? length text then [Str (substring text from None)] else [])
  }.
Proof. apply exec_bounds in E. lia. Qed.

Transparent exec substring shoppingItem.

(** [String.prototype.split('\n')]. *)
Fixpoint split_lines (s : jsstring) : list jsstring :=
  match s with
  | [] => [[]]
  | c :: s' =>
      if (c =? 10)%N then [] :: split_lines s'
      else match split_lines s' with
           | line :: lines => (c :: line) :: lines
           | [] => [[c]]
           end
  end.

(** What is rendered: runs of lines (one [<span>line<br/></span>] per
    line) and shopping items.  React keys are left out. *)
Inductive node :=
| Lines (lines : list jsstring)
| Item (name url description : jsstring).

Definition render (p : part) : node :=
  match p with
  | Str s => Lines (split_lines s)
  | ShoppingItem name url description => Item name url description
  end.

Definition ParsedMessage (message : ChatMessage) : list node :=
  if match role message with user => true | model => false end
     || negb (includes (text message) (js "- **["))
  then [Lines (split_lines (text message))]
  else map render (scan (text message) 0 []).

(** ** constants.ts *)

Definition DESIGN_STYLES : list jsstring :=
  [js "Mid-Century Modern"; js "Scandinavian"; js "Industrial"; js "Bohemian";
   js "Coastal"; js "Minimalist"; js "Art Deco"].

Definition COLOR_PALETTES : list jsstring :=
  [js "Warm Tones"; js "Cool Tones"; js "Neutral"; js "Vibrant"].

Definition ATMOSPHERES : list jsstring :=
  [js "Cozy & Inviting"; js "Bright & Airy"; js "Modern & Sleek"; js "Relaxed & Calm"].

(** The [id] of each entry; its display name is not used by a handler. *)
Definition IMAGE_QUALITIES : list ImageQuality := [standard; high].

(** ** The selection handlers *)

(** [current === label ? null : label], where [current] may be [null]. *)
Definition toggle (label : jsstring) (current : option jsstring) : option jsstring :=
  match current with
  | Some c => if bool_decide (c = label) then None else Some label
  | None => Some label
  end.

Definition handleSelectStyle (style : jsstring) (st : State) : State :=
  setSelectedStyle (toggle style (selectedStyle st)) st.

Definition handleSelectColorPalette (palette : jsstring) (st : State) : State :=
  setSelectedColorPalette (toggle palette (selectedColorPalette st)) st.

Definition handleSelectAtmosphere (atmosphere : jsstring) (st : State) : State :=
  setSelectedAtmosphere (toggle atmosphere (selectedAtmosphere st)) st.

Definition handleSelectQuality (quality : ImageQuality) (st : State) : State :=
  setSelectedQuality quality st.

(** ** The mood board *)

(** [MoodBoardItem] of types.ts, a union tagged by [type]. *)
Module MoodBoardItem.

Inductive t :=
| design (id imageUrl style : jsstring)
| item (id name url description : jsstring).

Definition id (x : t) : jsstring :=
  match x with
  | design id _ _ => id
  | item id _ _ _ => id
  end.

End MoodBoardItem.

(** [Date.now()] in a template literal: the decimal digits of the number of
    milliseconds. *)
Definition Date_now_toString (now : nat) : jsstring :=
  js (NilZero.string_of_uint (Nat.to_uint now)).

(** [moodBoardItems] is a state cell of its own; the three handlers below
    are functions on its value.  [handleSaveDesign] also reads
    [selectedStyle]. *)
Definition handleSaveDesign (selectedStyle : option jsstring) (now : nat)
    (imageUrl : jsstring) (moodBoardItems : list MoodBoardItem.t) : list MoodBoardItem.t :=
  match selectedStyle with
  | Some style =>
      if truthy style then
        let newDesignItem :=
          MoodBoardItem.design (js "design-" ++ Date_now_toString now) imageUrl style in
        moodBoardItems ++ [newDesignItem]
      else moodBoardItems
  | None => moodBoardItems
  end.

Definition handleSaveShoppingItem (now : nat) (name url description : jsstring)
    (moodBoardItems : list MoodBoardItem.t) : list MoodBoardItem.t :=
  let newItem := MoodBoardItem.item (js "item-" ++ Date_now_toString now)
                   name url description in
  moodBoardItems ++ [newItem].

Definition handleRemoveMoodBoardItem (id : jsstring)
    (moodBoardItems : list MoodBoardItem.t) : list MoodBoardItem.t :=
  List.filter (fun item => negb (bool_decide (MoodBoardItem.id item = id))) moodBoardItems.

(** ** What the interface lets a user do *)

Section Interface.

Variable toLowerCase : jsstring → jsstring.

(** The states the component goes through when handlers run one after the
    other, each to its end: the state after mounting (the preferences
    effect on the initial state), and the state a handler leaves when it is
    invoked from the interface.  A result can only be selected on a card
    of the gallery, which is rendered in the [ready] state for an upload
    whose generated image is truthy; the style, palette and atmosphere
    buttons carry the labels of constants.ts.  The other conditions under
    which a control is shown or enabled are left out: every state the
    interface can reach is reachable in this sense. *)
Inductive reachable : State → Prop :=
| reach_mount (localStorage : option StoredItem) :
    reachable (loadPreferences localStorage initialState)
| reach_files (files : option (list File)) st :
    reachable st → reachable (processFiles files st)
| reach_remove (index : nat) st :
    reachable st → reachable (handleRemoveImage index st)
| reach_style (style : jsstring) st :
    reachable st → In style DESIGN_STYLES → reachable (handleSelectStyle style st)
| reach_palette (palette : jsstring) st :
    reachable st → In palette COLOR_PALETTES →
    reachable (handleSelectColorPalette palette st)
| reach_atmosphere (atmosphere : jsstring) st :
    reachable st → In atmosphere ATMOSPHERES →
    reachable (handleSelectAtmosphere atmosphere st)
| reach_quality (quality : ImageQuality) st :
    reachable st → In quality IMAGE_QUALITIES → reachable (handleSelectQuality quality st)
| reach_clear st :
    reachable st → reachable (handleClearPreferences st).2
| reach_start st :
    reachable st → reachable (setShowProcess false st)
| reach_generate (service : nat → call → option jsstring) st :
    reachable st → reachable (ui (handleGenerateClick service (start st)).1)
| reach_select (index : nat) (generated : jsstring) st :
    reachable st →
    appState st = ready →
    index < length (originalImages st) →
    generatedImages st !! index = Some generated →
    truthy generated = true →
    reachable (setSelectedResultIndex (Some index) st)
| reach_mode (mode : ChatMode) st :
    reachable st → reachable (setChatMode mode st)
| reach_submit (service : nat → call → option jsstring) (now later : nat)
    (input : jsstring) st :
    reachable st →
    reachable (ui (submit toLowerCase service now later input (start st)).1).

End Interface.

(** * The vocabulary of the statements *)

(** ** Rounds of the generation loop *)

Section Rounds.

Variable service : Service.

(** The values the handler closes over. *)
Variables (originals : list jsstring) (referenceImage : jsstring) (q : ImageQuality).

Let total := length originals.

(** The body of the [for] loop of handleGenerateClick. *)
Definition loop_body (i : nat) : Async unit :=
  (progress (Some (i + 1, total)) ;;
   styledImage ← await service (applyStyleFromReference (originals !!! i) referenceImage q);
   update (setGeneratedImages (fun prev => <[ i := styledImage ]> prev)) ;;
   emit (Commit i styledImage))%async.

(** What one successful round of the loop leaves behind. *)
Definition round_events (i : nat) (r : jsstring) : list event :=
  [Progress (Some (i + 1, total));
   Issue (applyStyleFromReference (originals !!! i) referenceImage q);
   Commit i r].

Definition round (w : World) (ir : nat * jsstring) : World :=
  {| ui := setGeneratedImages (fun prev => <[ ir.1 := ir.2 ]> prev)
             (setGenerationProgress (Some (ir.1 + 1, total)) (ui w));
     log := log w ++ round_events ir.1 ir.2;
     issued := S (issued w) |}.

(** A round whose call rejects. *)
Definition broken_round (w : World) (i : nat) : World :=
  {| ui := setGenerationProgress (Some (i + 1, total)) (ui w);
     log := log w ++ [Progress (Some (i + 1, total));
                      Issue (applyStyleFromReference (originals !!! i) referenceImage q)];
     issued := S (issued w) |}.

(** The rounds [from .. from + length rs - 1], with results [rs]. *)
Definition rounds (w : World) (from : nat) (rs : list jsstring) : World :=
  foldl round w (zip (seq from (length rs)) rs).

(** [rs] are the payloads the service resolves the calls of the rounds
    [from, from + 1, ...] with, the first of them being call number [n]. *)
Definition resolved (n from : nat) (rs : list jsstring) : Prop :=
  ∀ k r, rs !! k = Some r →
    service (n + k) (applyStyleFromReference (originals !!! (from + k)) referenceImage q)
    = Some r.

(** A run of rounds touches the generated images and the progress only. *)
Definition erase (st : State) : State :=
  setGenerationProgress None (setGeneratedImages (fun _ => ∅) st).

End Rounds.

(** ** Steps of a generation run *)

(** The call of step [i] of a run: the style call for image 0, a
    reference-apply call conditioned on [referenceImage] for the others. *)
Definition step_call (st : State) (style referenceImage : jsstring) (i : nat) : call :=
  match i with
  | 0 => generateImageWithStyle (originalImages st !!! 0) style
           (selectedColorPalette st) (selectedAtmosphere st) (selectedQuality st)
  | S _ => applyStyleFromReference (originalImages st !!! i) referenceImage
             (selectedQuality st)
  end.

(** What a successful step [i] with result [r] does, in order: the progress
    counter is set, the call is issued, its result is committed at key [i]. *)
Definition step_events (st : State) (style referenceImage : jsstring)
    (i : nat) (r : jsstring) : list event :=
  [Progress (Some (i + 1, length (originalImages st)));
   Issue (step_call st style referenceImage i);
   Commit i r].

(** The result of step 0, the reference image of the later steps. *)
Definition reference (results : list jsstring) : jsstring := default [] (head results).

(** The state once the run has reset what depends on a generation. *)
Definition prepared (st : State) : State :=
  setSelectedResultIndex None
    (setChatMode design
       (setChatMessages (fun _ => [])
          (setGeneratedImages (fun _ => ∅)
             (setError None (setAppState generating st))))).

(** The world after step 0 resolved with [ref]. *)
Definition first_round (st : State) (style ref : jsstring) : World :=
  {| ui := setGeneratedImages (fun prev => <[ 0 := ref ]> prev)
             (setGenerationProgress (Some (1, length (originalImages st))) (prepared st));
     log := step_events st style ref 0 ref;
     issued := 1 |}.

(** The world after step 0 rejected. *)
Definition broken_first_round (st : State) (style : jsstring) : World :=
  {| ui := setGenerationProgress (Some (1, length (originalImages st))) (prepared st);
     log := [Progress (Some (1, length (originalImages st)));
             Issue (step_call st style [] 0)];
     issued := 1 |}.

(** The end of the [try] block followed by [finally]. *)
Definition finish (w : World) : World :=
  {| ui := setGenerationProgress None (setAppState ready (ui w));
     log := log w ++ [Progress None];
     issued := issued w |}.

(** [catch] followed by [finally]. *)
Definition abort (w : World) : World :=
  {| ui := setGenerationProgress None
             (setAppState initial
                (setError (Some (js "Failed to generate all images. Please try again."))
                   (ui w)));
     log := log w ++ [Progress None];
     issued := issued w |}.

(** ** The text of patterns, parts and nodes *)

(** The text a pattern matches when its groups capture [gs]. *)
Fixpoint instantiate (pattern : list token) (gs : list jsstring) : jsstring :=
  match pattern, gs with
  | [], _ => []
  | Lit l :: pattern', _ => l ++ instantiate pattern' gs
  | _ :: pattern', g :: gs' => g ++ instantiate pattern' gs'
  | _ :: pattern', [] => instantiate pattern' []
  end.

(** What a match of a group followed by [rest] consists of: the run [g]
    the group takes from [s], free of line terminators, and a match of
    [rest] on what follows. *)
Definition dotsMatch (rest : jsstring → option (list jsstring * nat))
    (taken s : jsstring) (gs : list jsstring) (n : nat) : Prop :=
  ∃ g gs' n',
    gs = (taken ++ g) :: gs'
    ∧ n = length taken + length g + n'
    ∧ take (length g) s = g
    ∧ forallb (fun c => negb (isLineTerminator c)) g = true
    ∧ rest (drop (length g) s) = Some (gs', n').

(** The number of groups of a pattern. *)
Fixpoint groupCount (pattern : list token) : nat :=
  match pattern with
  | [] => 0
  | Lit _ :: pattern' => groupCount pattern'
  | _ :: pattern' => S (groupCount pattern')
  end.

(** The source text of a shopping item. *)
Definition itemText (name url description : jsstring) : jsstring :=
  js "- **[" ++ name ++ js "](" ++ url ++ js ")** - " ++ description.

Definition partText (p : part) : jsstring :=
  match p with
  | Str s => s
  | ShoppingItem name url description => itemText name url description
  end.

(** [split('\n')] keeps every code unit but the line feeds it splits at. *)
Fixpoint join_lines (lines : list jsstring) : jsstring :=
  match lines with
  | [] => []
  | [line] => line
  | line :: lines' => line ++ 10%N :: join_lines lines'
  end.

(** The text a rendered node shows, or stands for. *)
Definition nodeText (n : node) : jsstring :=
  match n with
  | Lines lines => join_lines lines
  | Item name url description => itemText name url description
  end.

Definition sofaReply : jsstring := js "- **[Sofa](http://x)** - Grey linen sofa".

(** ** Chat, preferences, ingestion *)

(** A transcript made of exchanges: a user message, then the model message
    that answers it. *)
Fixpoint exchanges (l : list ChatMessage) : bool :=
  match l with
  | [] => true
  | u :: l' =>
      match role u, l' with
      | user, m :: l'' =>
          match role m with
          | model => exchanges l''
          | user => false
          end
      | _, _ => false
      end
  end.

(** The call a send operation issues, given the selected index [s]. *)
Definition chatCall (st : State) (s : nat) (message : jsstring) (isShoppingQuery : bool)
  : call :=
  match chatMode st, generatedImages st !! s with
  | design, Some baseImage =>
      if truthy baseImage then
        if isShoppingQuery then getShoppingSuggestions baseImage message
        else refineImageWithText baseImage message (selectedQuality st)
      else getChatResponse message
  | _, _ => getChatResponse message
  end.

Definition isRefinement (c : call) : bool :=
  match c with refineImageWithText _ _ _ => true | _ => false end.

(** The text of the model message that ends a send operation. *)
Definition replyText (c : call) (outcome : option jsstring) : jsstring :=
  match outcome with
  | Some r => if isRefinement c then acknowledgement else r
  | None => errorText
  end.

(** The world a send operation ends in when an index is selected. *)
Definition sent (st : State) (s now later : nat) (message : jsstring) (c : call)
    (outcome : option jsstring) : World :=
  let u := {| id_ := now; role := user; text := message |} in
  let m := {| id_ := later + 1; role := model; text := replyText c outcome |} in
  let commits :=
    match outcome with
    | Some r => if isRefinement c then [(s, r)] else []
    | None => []
    end in
  {| ui := setIsChatLoading false
             (setChatMessages (fun prev => prev ++ [m])
                (setGeneratedImages
                   (fun prev => foldl (fun g ir => <[ ir.1 := ir.2 ]> g) prev commits)
                   (setError None
                      (setIsChatLoading true
                         (setChatMessages (fun prev => prev ++ [u]) st)))));
     log := [Append u; Issue c] ++ map (fun ir => Commit ir.1 ir.2) commits ++ [Append m];
     issued := 1 |}.

(** The four selections that are saved. *)
Definition selections (st : State)
  : option jsstring * option jsstring * option jsstring * ImageQuality :=
  (selectedStyle st, selectedColorPalette st, selectedAtmosphere st, selectedQuality st).

(** A selection is unset or a label, and a label is not the empty string. *)
Definition selectable (o : option jsstring) : Prop := o ≠ Some [].

Definition isImageFile (file : File) : bool := startsWith (type file) (js "image/").

(** ** Scenarios *)

(** Three uploaded photos and the style Industrial. *)
Definition threeUploads : State :=
  setSelectedStyle (Some (js "Industrial"))
    (setOriginalImages (fun _ => [js "room-a"; js "room-b"; js "room-c"]) initialState).

(** A service that resolves every call: call number [n] gives the payload
    [styled-] followed by the code unit [n]. *)
Definition resolving : nat → call → option jsstring :=
  fun n _ => Some (js "styled-" ++ [N.of_nat n]).

(** The same, but call number [i] rejects. *)
Definition rejectingAt (i : nat) : nat → call → option jsstring :=
  fun n c => if n =? i then None else resolving n c.

(** The gallery after a run on [threeUploads], with the third result
    selected. *)
Definition gallery : State :=
  setSelectedResultIndex (Some 2)
    (setAppState ready
       (setGeneratedImages
          (fun _ => <[ 0 := js "design-a" ]> (<[ 1 := js "design-b" ]>
                      (<[ 2 := js "design-c" ]> ∅)))
          threeUploads)).

(** Saved selections: a style and a palette, no atmosphere, high quality. *)
Definition scandinavian : State :=
  setSelectedQuality high
    (setSelectedColorPalette (Some (js "Neutral"))
       (setSelectedStyle (Some (js "Scandinavian")) initialState)).

(** [toLowerCase] on text whose letters are ASCII. *)
Definition toLowerCaseASCII (s : jsstring) : jsstring :=
  map (fun c => if (65 <=? c)%N && (c <=? 90)%N then (c + 32)%N else c) s.

(** A dropped batch: a PNG, a text file, and a JPEG that cannot be read. *)
Definition droppedFiles : list File :=
  [ {| type := js "image/png"; readAsDataURL := Some (js "data:image/png;base64,AAAA") |};
    {| type := js "text/plain"; readAsDataURL := Some (js "data:text/plain;base64,AAAA") |};
    {| type := js "image/jpeg"; readAsDataURL := None |} ].

(** ** Consistency of a state *)

(** Every generated image belongs to an upload. *)
Definition aligned (st : State) : Prop :=
  ∀ i, is_Some (generatedImages st !! i) → i < length (originalImages st).

(** The selected result is one of the generated images. *)
Definition selectionValid (st : State) : Prop :=
  ∀ s, selectedResultIndex st = Some s → is_Some (generatedImages st !! s).

(** What holds of the state whenever no handler is running. *)
Record consistent (st : State) : Prop := {
  consistent_aligned : aligned st;
  consistent_selection : selectionValid st;
  consistent_chat : exchanges (chatMessages st) = true;
  consistent_idle : appState st ≠ generating;
  consistent_progress : generationProgress st = None;
  consistent_loading : isChatLoading st = false;
  consistent_style : selectable (selectedStyle st);
  consistent_palette : selectable (selectedColorPalette st);
  consistent_atmosphere : selectable (selectedAtmosphere st)
}.

(** The guard of handleGenerateClick lets the run start. *)
Definition canGenerate (st : State) : Prop :=
  originalImages st ≠ [] ∧ truthy_opt (selectedStyle st) = true.

(** The fields a generation run and a chat operation leave alone. *)
Definition inputs (st : State)
  : list jsstring * (option jsstring * option jsstring * option jsstring * ImageQuality)
    * bool :=
  (originalImages st, selections st, showProcess st).

(** ** Shape of the parsed parts *)

(** A text with no line terminator. *)
Definition oneLine (s : jsstring) : Prop :=
  forallb (fun c => negb (isLineTerminator c)) s = true.

(** No part is an empty string and no two strings are neighbours. *)
Fixpoint wellSeparated (parts : list part) : Prop :=
  match parts with
  | [] => True
  | Str s :: parts' =>
      s ≠ [] ∧ match parts' with Str _ :: _ => False | _ => True end
      ∧ wellSeparated parts'
  | ShoppingItem _ _ _ :: parts' => wellSeparated parts'
  end.

(** The pattern ends with the greedy group. *)
Fixpoint endsGreedy (pattern : list token) : bool :=
  match pattern with
  | [] => false
  | [GreedyDots] => true
  | _ :: pattern' => endsGreedy pattern'
  end.


(** ** The mood board over time *)

(** What a user does to the mood board: save the design of a card (the
    handler reads the selected style), save a shopping item of the chat,
    remove a card.  A save carries the value of [Date.now()] it reads. *)
Inductive boardAction :=
| SaveDesign (selectedStyle : option jsstring) (now : nat) (imageUrl : jsstring)
| SaveShoppingItem (now : nat) (name url description : jsstring)
| RemoveItem (id : jsstring).

Definition boardStep (moodBoardItems : list MoodBoardItem.t) (a : boardAction)
  : list MoodBoardItem.t :=
  match a with
  | SaveDesign selectedStyle now imageUrl =>
      handleSaveDesign selectedStyle now imageUrl moodBoardItems
  | SaveShoppingItem now name url description =>
      handleSaveShoppingItem now name url description moodBoardItems
  | RemoveItem id => handleRemoveMoodBoardItem id moodBoardItems
  end.

Definition boardRun (actions : list boardAction) (moodBoardItems : list MoodBoardItem.t)
  : list MoodBoardItem.t :=
  fold_left boardStep actions moodBoardItems.

(** The kind and the instant of a save that adds a card: [true] for a
    design, [false] for a shopping item. *)
Definition stamp (a : boardAction) : option (bool * nat) :=
  match a with
  | SaveDesign selectedStyle now _ =>
      if truthy_opt selectedStyle then Some (true, now) else None
  | SaveShoppingItem now _ _ _ => Some (false, now)
  | RemoveItem _ => None
  end.

Definition stamps (actions : list boardAction) : list (bool * nat) :=
  omap stamp actions.

(** The id a save with that stamp gives to its card. *)
Definition idOf (s : bool * nat) : jsstring :=
  (if s.1 then js "design-" else js "item-") ++ Date_now_toString s.2.

(** The files of a batch that are taken as images can all be read. *)
Definition readable (files : list File) : Prop :=
  ∀ file, file ∈ files → isImageFile file = true → is_Some (readAsDataURL file).

(** ** Well-formed shopping references *)

(** At index [k] of [text] starts the text of a shopping item: the three
    literals of the pattern around a name, a url and a description that
    hold no line terminator, followed by whatever is left of the text. *)
Definition wellFormedAt (text : jsstring) (k : nat) : Prop :=
  ∃ name url description rest,
    oneLine name ∧ oneLine url ∧ oneLine description
    ∧ drop k text = itemText name url description ++ rest.
(** * Properties *)

(** ** Removal of an uploaded image *)

Example removeGenerated_ex :
  removeGenerated 1 (<[0:=10]> (<[1:=11]> (<[2:=12]> (<[4:=14]> (∅ : gmap nat nat)))))
  = <[0:=10]> (<[1:=12]> (<[3:=14]> ∅)).
Proof. vm_compute. reflexivity. Qed.

Lemma Array_filter_keep {A} (k i : nat) (l : list A) :
  k < i → Array_filter (fun _ index => negb (index =? k)) i l = l.
Proof.
  revert i. induction l as [|x l IH]; intros i Hi; simpl; [done|].
  destruct (Nat.eqb_spec i k) as [->|Hne]; [lia|].
  simpl. f_equal. apply IH. lia.
Qed.

Lemma Array_filter_remove {A} (k i : nat) (l : list A) :
  i ≤ k →
  Array_filter (fun _ index => negb (index =? k)) i l
  = take (k - i) l ++ drop (S (k - i)) l.
Proof.
  revert i. induction l as [|x l IH]; intros i Hi; simpl.
  - by rewrite take_nil.
  - destruct (Nat.eqb_spec i k) as [->|Hne]; simpl.
    + rewrite Nat.sub_diag. simpl. rewrite drop_0.
      apply Array_filter_keep. lia.
    + rewrite IH by lia.
      replace (k - i) with (S (k - S i)) by lia. done.
Qed.

Lemma lookup_remove_at {A} (k j : nat) (l : list A) :
  (take k l ++ drop (S k) l) !! j = l !! (if decide (j < k) then j else S j).
Proof.
  destruct (decide (k ≤ length l)) as [Hk|Hk].
  - case_decide.
    + rewrite lookup_app_l by (rewrite length_take; lia).
      by rewrite lookup_take_lt.
    + rewrite lookup_app_r by (rewrite length_take; lia).
      rewrite length_take, lookup_drop. f_equal. lia.
  - rewrite take_ge, drop_ge, app_nil_r by lia.
    case_decide; [done|].
    rewrite !lookup_ge_None_2 by lia. done.
Qed.

(** [Object.keys] lists exactly the keys of the object, in strictly
    ascending order. *)
Lemma StronglySorted_le_lt (l : list nat) :
  StronglySorted (≤) l → NoDup l → StronglySorted (<) l.
Proof.
  induction 1 as [|x l Hs IH Hall]; intros Hnd; constructor.
  - apply IH. by apply NoDup_cons in Hnd as [_ ?].
  - apply NoDup_cons in Hnd as [Hx _].
    rewrite Forall_forall in Hall |- *. intros y Hy.
    specialize (Hall y Hy). assert (x ≠ y) by (intros ->; done). lia.
Qed.

Lemma Object_keys_sorted {A} (o : gmap nat A) : StronglySorted (<) (Object_keys o).
Proof.
  unfold Object_keys. apply StronglySorted_le_lt.
  - apply (StronglySorted_merge_sort _).
  - rewrite merge_sort_Permutation. apply NoDup_elements.
Qed.

Lemma elem_of_Object_keys {A} (o : gmap nat A) (x : nat) :
  x ∈ Object_keys o ↔ is_Some (o !! x).
Proof.
  unfold Object_keys.
  rewrite merge_sort_Permutation, elem_of_elements. apply elem_of_dom.
Qed.

Lemma lookup_shiftKey {A} (k x y : nat) (m : gmap nat A) :
  shiftKey k m x !! y
  = if decide (k < x) then
      if decide (y = x) then None
      else if decide (y = x - 1) then m !! x else m !! y
    else m !! y.
Proof.
  unfold shiftKey. destruct (Nat.ltb_spec k x); case_decide; try lia; [|done].
  case_decide as Hy.
  - subst. by rewrite lookup_delete_eq.
  - rewrite lookup_delete_ne by done.
    case_decide.
    + subst. by rewrite lookup_partial_alter_eq.
    + by rewrite lookup_partial_alter_ne.
Qed.

Lemma lookup_foldl_shiftKey {A} (k : nat) (ks : list nat) (m : gmap nat A) (j : nat) :
  StronglySorted (<) ks →
  foldl (shiftKey k) m ks !! j
  = if decide (S j ∈ ks ∧ k < S j) then m !! S j
    else if decide (j ∈ ks ∧ k < j) then None
    else m !! j.
Proof.
  intros Hs. revert m. induction Hs as [|x ks Hs IH Hall]; intros m; simpl.
  - repeat case_decide; try done; set_solver.
  - rewrite IH. clear IH. rewrite Forall_forall in Hall.
    rewrite !lookup_shiftKey.
    assert (HSj : S j ∈ ks → x < S j) by apply Hall.
    assert (Hj : j ∈ ks → x < j) by apply Hall.
    clear Hall Hs.
    repeat case_decide; try done; try (f_equal; lia); exfalso;
      repeat match goal with
      | H : context [_ ∈ _ :: _] |- _ => rewrite elem_of_cons in H
      end; intuition (subst; lia).
Qed.

Lemma lookup_removeGenerated {A} (k j : nat) (m : gmap nat A) :
  removeGenerated k m !! j = m !! (if decide (j < k) then j else S j).
Proof.
  unfold removeGenerated.
  rewrite lookup_foldl_shiftKey by apply Object_keys_sorted.
  repeat case_decide;
    repeat match goal with
    | H : context [_ ∈ Object_keys _] |- _ => rewrite elem_of_Object_keys in H
    end; try lia;
    destruct (decide (j = k)) as [->|];
    repeat match goal with
    | H : ¬ (is_Some ?x ∧ _) |- _ =>
        assert (x = None)
          by (apply eq_None_not_Some; intros ?; apply H; split; [done|lia]);
        clear H
    end;
    rewrite ?lookup_delete_eq, ?lookup_delete_ne in * by lia;
    try lia; congruence.
Qed.

(** C3.  Removing the uploaded image at index [k] drops exactly that
    element from the uploaded sequence (the others keep their order), and
    re-keys the generated images the same way: a key below [k] keeps its
    image, the image at key [k] is dropped, and the image at every key
    [j + 1 > k] moves to key [j].  Both containers are re-indexed by the
    same map of indices, so a generated image stays aligned with its
    upload. *)
Theorem handleRemoveImage_reindexes (k : nat) (st : State) :
  k < length (originalImages st) →
  let st' := handleRemoveImage k st in
  let old := fun j : nat => if decide (j < k) then j else S j in
  originalImages st' = take k (originalImages st) ++ drop (S k) (originalImages st)
  ∧ length (originalImages st') + 1 = length (originalImages st)
  ∧ (∀ j, originalImages st' !! j = originalImages st !! old j)
  ∧ (∀ j, generatedImages st' !! j = generatedImages st !! old j).
Proof.
  intros Hk st' old.
  assert (Ho : originalImages st'
               = take k (originalImages st) ++ drop (S k) (originalImages st)).
  { unfold st', handleRemoveImage. simpl.
    rewrite Array_filter_remove by lia. by rewrite Nat.sub_0_r. }
  split; [done|]. split; [|split].
  - rewrite Ho, length_app, length_take, length_drop. lia.
  - intros j. rewrite Ho. apply lookup_remove_at.
  - intros j. unfold st', handleRemoveImage. simpl. apply lookup_removeGenerated.
Qed.

Lemma handleRemoveImage_reindexes_witness :
  1 < length (originalImages gallery)
  ∧ originalImages (handleRemoveImage 1 gallery) = [js "room-a"; js "room-c"]
  ∧ generatedImages (handleRemoveImage 1 gallery) !! 0 = Some (js "design-a")
  ∧ generatedImages (handleRemoveImage 1 gallery) !! 1 = Some (js "design-c")
  ∧ generatedImages (handleRemoveImage 1 gallery) !! 2 = None.
Proof.
  assert (Hk : 1 < length (originalImages gallery)) by (simpl; lia).
  destruct (handleRemoveImage_reindexes 1 gallery Hk) as (Ho & _ & _ & Hg).
  split; [exact Hk|]. split; [exact Ho|].
  split; [|split]; rewrite Hg; reflexivity.
Defined.

(** C10.  Removing the uploaded image at index [k] re-aligns the selected
    result index: a selection of [k] is cleared, a selection above [k]
    goes down by one, a selection below [k] (index 0 included) stays; a
    selection that survives designates the same upload and the same
    generated image as before. *)
Theorem handleRemoveImage_selection (k : nat) (st : State) :
  let st' := handleRemoveImage k st in
  (selectedResultIndex st = Some k → selectedResultIndex st' = None)
  ∧ (∀ s, selectedResultIndex st = Some s → k < s →
       selectedResultIndex st' = Some (s - 1))
  ∧ (∀ s, selectedResultIndex st = Some s → s < k →
       selectedResultIndex st' = Some s)
  ∧ (selectedResultIndex st = None → selectedResultIndex st' = None)
  ∧ (∀ s s', selectedResultIndex st = Some s → selectedResultIndex st' = Some s' →
       originalImages st' !! s' = originalImages st !! s
       ∧ generatedImages st' !! s' = generatedImages st !! s).
Proof.
  intros st'.
  assert (Hsel : selectedResultIndex st'
                 = removeSelection k (selectedResultIndex st)) by done.
  rewrite Hsel. unfold removeSelection.
  split; [|split; [|split; [|split]]].
  - intros ->. by rewrite Nat.eqb_refl.
  - intros s -> Hs.
    destruct (Nat.eqb_spec s k); [lia|].
    destruct (Nat.eqb_spec s 0); [lia|].
    destruct (Nat.ltb_spec k s); [done|lia].
  - intros s -> Hs.
    destruct (Nat.eqb_spec s k); [lia|].
    destruct (Nat.ltb_spec k s); [lia|].
    by rewrite andb_false_r.
  - by intros ->.
  - intros s s' -> Hs'.
    assert (Hidx : s = if decide (s' < k) then s' else S s').
    { destruct (Nat.eqb_spec s k); [done|].
      destruct (Nat.eqb_spec s 0); destruct (Nat.ltb_spec k s);
        simpl in Hs'; injection Hs' as <-; case_decide; lia. }
    rewrite Hidx. split.
    + unfold st', handleRemoveImage. simpl.
      rewrite Array_filter_remove by lia. rewrite Nat.sub_0_r.
      apply lookup_remove_at.
    + unfold st', handleRemoveImage. simpl. apply lookup_removeGenerated.
Qed.

Lemma handleRemoveImage_selection_witness :
  selectedResultIndex gallery = Some 2
  ∧ selectedResultIndex (handleRemoveImage 1 gallery) = Some 1
  ∧ originalImages (handleRemoveImage 1 gallery) !! 1 = Some (js "room-c")
  ∧ generatedImages (handleRemoveImage 1 gallery) !! 1 = Some (js "design-c").
Proof.
  assert (Hsel : selectedResultIndex gallery = Some 2) by reflexivity.
  destruct (handleRemoveImage_selection 1 gallery) as (_ & Hgt & _ & _ & Hpair).
  assert (Hsel' : selectedResultIndex (handleRemoveImage 1 gallery) = Some 1).
  { apply (Hgt 2 Hsel). lia. }
  destruct (Hpair 2 1 Hsel Hsel') as [Ho Hg].
  split; [exact Hsel|]. split; [exact Hsel'|]. split.
  - rewrite Ho. reflexivity.
  - rewrite Hg. reflexivity.
Defined.
(** ** The generation run *)

Section Generation.

Variable service : Service.

(** The values the handler closes over. *)
Variables (originals : list jsstring) (referenceImage : jsstring) (q : ImageQuality).

Lemma loop_body_resolves (i : nat) (w : World) (r : jsstring) :
  service (issued w) (applyStyleFromReference (originals !!! i) referenceImage q) = Some r →
  loop_body service originals referenceImage q i w
  = (round originals referenceImage q w (i, r), Some tt).
Proof.
  intros Hr. unfold loop_body, progress, bind, update, emit, await, round, round_events.
  simpl. rewrite Hr. simpl. by rewrite <- !app_assoc.
Qed.

Lemma loop_body_rejects (i : nat) (w : World) :
  service (issued w) (applyStyleFromReference (originals !!! i) referenceImage q) = None →
  loop_body service originals referenceImage q i w
  = (broken_round originals referenceImage q w i, None).
Proof.
  intros Hr. unfold loop_body, progress, bind, update, emit, await, broken_round.
  simpl. rewrite Hr. simpl. by rewrite <- !app_assoc.
Qed.

Lemma for_range_resolves (count from : nat) (w : World) :
  (∀ k, k < count →
     is_Some (service (issued w + k)
                (applyStyleFromReference (originals !!! (from + k)) referenceImage q))) →
  ∃ rs, length rs = count
        ∧ resolved service originals referenceImage q (issued w) from rs
        ∧ for_range from count (loop_body service originals referenceImage q) w
          = (rounds originals referenceImage q w from rs, Some tt).
Proof.
  revert from w. induction count as [|count IH]; intros from w Hok.
  - exists []. split; [done|]. split; [|done]. intros k r Hk. by destruct k.
  - destruct (Hok 0 ltac:(lia)) as [r Hr]. rewrite !Nat.add_0_r in Hr.
    destruct (IH (S from) (round originals referenceImage q w (from, r)))
      as (rs & Hlen & Hres & Hrun).
    { intros k Hk. simpl. replace (S (issued w + k)) with (issued w + S k) by lia.
      replace (S (from + k)) with (from + S k) by lia. apply Hok. lia. }
    exists (r :: rs). split; [simpl; lia|]. split.
    + intros [|k] r' Hk; simpl in Hk.
      * rewrite !Nat.add_0_r. congruence.
      * specialize (Hres k r' Hk). simpl in Hres.
        replace (issued w + S k) with (S (issued w + k)) by lia.
        by replace (from + S k) with (S from + k) by lia.
    + simpl. unfold bind at 1. rewrite (loop_body_resolves _ _ r Hr).
      fold (for_range (S from) count (loop_body service originals referenceImage q)).
      rewrite Hrun. done.
Qed.

Lemma for_range_rejects (count from k : nat) (w : World) :
  k < count →
  (∀ j, j < k →
     is_Some (service (issued w + j)
                (applyStyleFromReference (originals !!! (from + j)) referenceImage q))) →
  service (issued w + k)
    (applyStyleFromReference (originals !!! (from + k)) referenceImage q) = None →
  ∃ rs, length rs = k
        ∧ resolved service originals referenceImage q (issued w) from rs
        ∧ for_range from count (loop_body service originals referenceImage q) w
          = (broken_round originals referenceImage q
               (rounds originals referenceImage q w from rs) (from + k), None).
Proof.
  revert from k w. induction count as [|count IH]; intros from k w Hk Hok Hfail; [lia|].
  destruct k as [|k].
  - exists []. split; [done|]. split; [by intros [|?] ? ?|].
    rewrite !Nat.add_0_r in *. simpl. unfold bind at 1.
    by rewrite (loop_body_rejects _ _ Hfail).
  - destruct (Hok 0 ltac:(lia)) as [r Hr]. rewrite !Nat.add_0_r in Hr.
    destruct (IH (S from) k (round originals referenceImage q w (from, r)))
      as (rs & Hlen & Hres & Hrun).
    { lia. }
    { intros j Hj. simpl. replace (S (issued w + j)) with (issued w + S j) by lia.
      replace (S (from + j)) with (from + S j) by lia. apply Hok. lia. }
    { simpl. replace (S (issued w + k)) with (issued w + S k) by lia.
      by replace (S (from + k)) with (from + S k) by lia. }
    exists (r :: rs). split; [simpl; lia|]. split.
    + intros [|j] r' Hj; simpl in Hj.
      * rewrite !Nat.add_0_r. congruence.
      * specialize (Hres j r' Hj). simpl in Hres.
        replace (issued w + S j) with (S (issued w + j)) by lia.
        by replace (from + S j) with (S from + j) by lia.
    + simpl. unfold bind at 1. rewrite (loop_body_resolves _ _ r Hr).
      fold (for_range (S from) count (loop_body service originals referenceImage q)).
      rewrite Hrun.
      by replace (S from + k) with (from + S k) by lia.
Qed.

(** The log, the counter and the state after a run of rounds. *)
Lemma rounds_log (rs : list jsstring) (from : nat) (w : World) :
  log (rounds originals referenceImage q w from rs)
  = log w
    ++ concat (imap (fun k r => round_events originals referenceImage q (from + k) r) rs).
Proof.
  unfold rounds. revert from w. induction rs as [|r rs IH]; intros from w; simpl.
  - by rewrite app_nil_r.
  - rewrite IH. simpl. rewrite <- !app_assoc, Nat.add_0_r. simpl.
    do 5 f_equal. apply imap_ext. intros k x _. simpl.
    f_equal. lia.
Qed.

Lemma rounds_issued (rs : list jsstring) (from : nat) (w : World) :
  issued (rounds originals referenceImage q w from rs) = issued w + length rs.
Proof.
  unfold rounds. revert from w. induction rs as [|r rs IH]; intros from w; simpl.
  - lia.
  - rewrite IH. simpl. lia.
Qed.

Lemma rounds_generated (rs : list jsstring) (from : nat) (w : World) (j : nat) :
  generatedImages (ui (rounds originals referenceImage q w from rs)) !! j
  = if decide (from ≤ j < from + length rs) then rs !! (j - from)
    else generatedImages (ui w) !! j.
Proof.
  unfold rounds. revert from w. induction rs as [|r rs IH]; intros from w; simpl.
  - case_decide; [lia|done].
  - rewrite IH. simpl. repeat case_decide; try lia.
    + replace (j - from) with (S (j - S from)) by lia. done.
    + assert (j = from) as -> by lia. rewrite Nat.sub_diag. simpl.
      by rewrite lookup_insert_eq.
    + rewrite lookup_insert_ne by lia. done.
Qed.

Lemma rounds_frame (rs : list jsstring) (from : nat) (w : World) :
  erase (ui (rounds originals referenceImage q w from rs)) = erase (ui w).
Proof.
  unfold rounds. revert from w. induction rs as [|r rs IH]; intros from w; simpl; [done|].
  by rewrite IH.
Qed.



End Generation.

Ltac run_prologue st Hs Ht :=
  unfold handleGenerateClick; simpl; rewrite Hs, Ht;
  destruct (Nat.eqb_spec (length (originalImages st)) 0) as [|_]; [lia|];
  cbn [negb orb].

Ltac run_async :=
  unfold try_catch_finally, bind, update, emit, progress, await;
  cbn -[for_range lookup_total Nat.sub js].

Ltac enter_loop service st style ref :=
  match goal with |- context [for_range 1 ?n ?f ?w] =>
    change (for_range 1 n f w)
      with (for_range 1 n
              (loop_body service (originalImages st) ref (selectedQuality st))
              (first_round st style ref))
  end.

Lemma handleGenerateClick_resolves (service : Service) (st : State) (style : jsstring) :
  selectedStyle st = Some style → truthy style = true →
  0 < length (originalImages st) →
  (∀ n c, is_Some (service n c)) →
  ∃ ref rs,
    service 0 (step_call st style [] 0) = Some ref
    ∧ length rs = length (originalImages st) - 1
    ∧ resolved service (originalImages st) ref (selectedQuality st) 1 1 rs
    ∧ handleGenerateClick service (start st)
      = (finish (rounds (originalImages st) ref (selectedQuality st)
                   (first_round st style ref) 1 rs), Some tt).
Proof.
  intros Hs Ht Hn Hok.
  destruct (Hok 0 (step_call st style [] 0)) as [ref Href].
  exists ref. simpl in Href.
  run_prologue st Hs Ht.
  destruct (Nat.eqb_spec (length (originalImages st)) 1) as [H1|H1].
  - exists []. split; [done|]. split; [by rewrite H1|]. split; [by intros [|?] ? ?|].
    run_async. rewrite Href. cbn -[js].
    unfold finish, rounds, first_round, step_events. cbn -[js]. rewrite H1. reflexivity.
  - unfold try_catch_finally, bind at 1 2 3 4 5 6 7 8 9 10 11 12,
      update, emit, progress, await.
    cbn -[for_range lookup_total Nat.sub js].
    rewrite Href. cbn -[for_range lookup_total Nat.sub js].
    enter_loop service st style ref.
    destruct (for_range_resolves service (originalImages st) ref (selectedQuality st)
                (length (originalImages st) - 1) 1 (first_round st style ref))
      as (rs & Hlen & Hres & Hrun).
    { intros; apply Hok. }
    exists rs. split; [done|]. split; [done|]. split; [done|].
    rewrite Hrun. unfold finish, emit. cbn -[lookup_total js rounds]. reflexivity.
Qed.

Lemma handleGenerateClick_rejects_first (service : Service) (st : State) (style : jsstring) :
  selectedStyle st = Some style → truthy style = true →
  0 < length (originalImages st) →
  service 0 (step_call st style [] 0) = None →
  handleGenerateClick service (start st) = (abort (broken_first_round st style), Some tt).
Proof.
  intros Hs Ht Hn Hfail. simpl in Hfail.
  run_prologue st Hs Ht.
  destruct (Nat.eqb_spec (length (originalImages st)) 1) as [H1|H1].
  - run_async. rewrite Hfail. cbn -[js].
    unfold abort, broken_first_round. cbn -[js]. rewrite H1. reflexivity.
  - unfold try_catch_finally, bind at 1 2 3 4 5 6 7 8 9 10 11 12,
      update, emit, progress, await.
    cbn -[for_range lookup_total Nat.sub js].
    rewrite Hfail. unfold abort, broken_first_round, emit.
    cbn -[lookup_total js]. reflexivity.
Qed.

Lemma handleGenerateClick_rejects_later (service : Service) (st : State)
    (style : jsstring) (k : nat) :
  selectedStyle st = Some style → truthy style = true →
  S k < length (originalImages st) →
  (∀ n c, n < S k → is_Some (service n c)) →
  (∀ c, service (S k) c = None) →
  ∃ ref rs,
    service 0 (step_call st style [] 0) = Some ref
    ∧ length rs = k
    ∧ resolved service (originalImages st) ref (selectedQuality st) 1 1 rs
    ∧ handleGenerateClick service (start st)
      = (abort (broken_round (originalImages st) ref (selectedQuality st)
                  (rounds (originalImages st) ref (selectedQuality st)
                     (first_round st style ref) 1 rs) (S k)), Some tt).
Proof.
  intros Hs Ht Hn Hok Hfail.
  destruct (Hok 0 (step_call st style [] 0) ltac:(lia)) as [ref Href].
  exists ref. simpl in Href.
  run_prologue st Hs Ht.
  destruct (Nat.eqb_spec (length (originalImages st)) 1) as [H1|H1]; [lia|].
  unfold try_catch_finally, bind at 1 2 3 4 5 6 7 8 9 10 11 12,
    update, emit, progress, await.
  cbn -[for_range lookup_total Nat.sub js].
  rewrite Href. cbn -[for_range lookup_total Nat.sub js].
  enter_loop service st style ref.
  destruct (for_range_rejects service (originalImages st) ref (selectedQuality st)
              (length (originalImages st) - 1) 1 k (first_round st style ref))
    as (rs & Hlen & Hres & Hrun).
  { lia. }
  { intros j Hj. apply Hok. simpl. lia. }
  { apply Hfail. }
  exists rs. split; [done|]. split; [done|]. split; [done|].
  rewrite Hrun. unfold abort, emit. cbn -[lookup_total js rounds]. reflexivity.
Qed.

Lemma imap_step_events_S (st : State) (style ref : jsstring) (rs : list jsstring) :
  imap (fun k r => round_events (originalImages st) ref (selectedQuality st) (1 + k) r) rs
  = imap (step_events st style ref ∘ S) rs.
Proof. by apply imap_ext. Qed.

Lemma resolved_step_call (service : Service) (st : State) (style ref : jsstring)
    (rs : list jsstring) :
  service 0 (step_call st style [] 0) = Some ref →
  resolved service (originalImages st) ref (selectedQuality st) 1 1 rs →
  ∀ i r, (ref :: rs) !! i = Some r →
    service i (step_call st style (reference (ref :: rs)) i) = Some r.
Proof.
  intros Href Hres [|i] r Hr; simpl in Hr; [simpl in *; congruence|].
  apply (Hres i r Hr).
Qed.

Lemma first_rounds_generated (st : State) (style ref : jsstring) (rs : list jsstring)
    (i : nat) :
  generatedImages (ui (rounds (originalImages st) ref (selectedQuality st)
                         (first_round st style ref) 1 rs)) !! i
  = (ref :: rs) !! i.
Proof.
  rewrite rounds_generated. simpl. case_decide.
  - destruct i as [|i]; [lia|]. simpl. by rewrite Nat.sub_0_r.
  - destruct i as [|i]; simpl; [by rewrite lookup_insert_eq|].
    rewrite lookup_insert_ne, lookup_empty by lia.
    symmetry. apply lookup_ge_None. lia.
Qed.

(** C1.  A run started with a non-empty upload sequence and a selected
    style, all of whose calls resolve, performs one step per image, in
    ascending index order: step 0 issues the one style call, every later
    step [i] issues one reference-apply call for image [i] conditioned on
    the result of step 0; in each step the progress counter is set to
    [(i + 1, total)] first, then the call is issued, then its result is
    committed at key [i], and the next step starts after that.  The run
    issues [total] calls, ends ready with the progress cleared, and key [i]
    holds the result of step [i]. *)
Theorem handleGenerateClick_steps (service : Service) (st : State) (style : jsstring) :
  selectedStyle st = Some style → truthy style = true →
  0 < length (originalImages st) →
  (∀ n c, is_Some (service n c)) →
  let total := length (originalImages st) in
  let w := (handleGenerateClick service (start st)).1 in
  ∃ results : list jsstring,
    length results = total
    ∧ (∀ i r, results !! i = Some r →
         service i (step_call st style (reference results) i) = Some r)
    ∧ log w = concat (imap (step_events st style (reference results)) results)
              ++ [Progress None]
    ∧ issued w = total
    ∧ (∀ i, generatedImages (ui w) !! i = results !! i)
    ∧ appState (ui w) = ready
    ∧ generationProgress (ui w) = None
    ∧ error (ui w) = None.
Proof.
  intros Hs Ht Hn Hok total w. subst w total.
  destruct (handleGenerateClick_resolves service st style Hs Ht Hn Hok)
    as (ref & rs & Href & Hlen & Hres & ->).
  exists (ref :: rs). simpl.
  split; [lia|]. split; [by apply resolved_step_call|].
  split; [|split; [|split; [|split; [done|split; [done|]]]]].
  - rewrite rounds_log, (imap_step_events_S st style). reflexivity.
  - rewrite rounds_issued. simpl. lia.
  - apply first_rounds_generated.
  - match goal with |- error (ui ?w) = _ => change (error (erase (ui w)) = None) end.
    by rewrite rounds_frame.
Qed.

Lemma handleGenerateClick_steps_witness :
  let w := (handleGenerateClick resolving (start threeUploads)).1 in
  (selectedStyle threeUploads = Some (js "Industrial")
   ∧ truthy (js "Industrial") = true
   ∧ 0 < length (originalImages threeUploads)
   ∧ ∀ n c, is_Some (resolving n c))
  ∧ ∃ results,
      length results = 3
      ∧ log w = concat (imap (step_events threeUploads (js "Industrial")
                                (reference results)) results)
                ++ [Progress None]
      ∧ issued w = 3
      ∧ (∀ i, generatedImages (ui w) !! i = results !! i)
      ∧ appState (ui w) = ready.
Proof.
  intros w.
  assert (Hs : selectedStyle threeUploads = Some (js "Industrial")) by reflexivity.
  assert (Ht : truthy (js "Industrial") = true) by reflexivity.
  assert (Hn : 0 < length (originalImages threeUploads)) by (simpl; lia).
  assert (Hok : ∀ n c, is_Some (resolving n c)) by (intros n c; eexists; reflexivity).
  split; [by split; [|split; [|split]]|].
  destruct (handleGenerateClick_steps resolving threeUploads (js "Industrial") Hs Ht Hn Hok)
    as (results & Hlen & _ & Hlog & Hissued & Hgen & Hready & _).
  exists results. split; [exact Hlen|]. split; [exact Hlog|].
  split; [exact Hissued|]. split; [exact Hgen|exact Hready].
Defined.

(** C2.  When the call of step [i] rejects (the earlier ones resolved), the
    run issues no further call: exactly [i + 1] calls were issued.  The
    generic batch-failure message is set, the run state is back to
    [initial] and the progress is cleared, and the generated images
    are those committed by the steps before [i]: present at every key
    below [i], absent from [i] on. *)
Theorem handleGenerateClick_failure (service : Service) (st : State)
    (style : jsstring) (i : nat) :
  selectedStyle st = Some style → truthy style = true →
  i < length (originalImages st) →
  (∀ n c, n < i → is_Some (service n c)) →
  (∀ c, service i c = None) →
  let total := length (originalImages st) in
  let w := (handleGenerateClick service (start st)).1 in
  ∃ results : list jsstring,
    length results = i
    ∧ (∀ j r, results !! j = Some r →
         service j (step_call st style (reference results) j) = Some r)
    ∧ log w = concat (imap (step_events st style (reference results)) results)
              ++ [Progress (Some (i + 1, total));
                  Issue (step_call st style (reference results) i)]
              ++ [Progress None]
    ∧ issued w = i + 1
    ∧ (∀ j, generatedImages (ui w) !! j = results !! j)
    ∧ (∀ j, is_Some (generatedImages (ui w) !! j) ↔ j < i)
    ∧ error (ui w) = Some (js "Failed to generate all images. Please try again.")
    ∧ appState (ui w) = initial
    ∧ generationProgress (ui w) = None.
Proof.
  intros Hs Ht Hi Hok Hfail total w. subst w total.
  destruct i as [|k].
  - rewrite (handleGenerateClick_rejects_first service st style Hs Ht Hi (Hfail _)).
    exists []. cbn -[js].
    split; [reflexivity|]. split; [by intros [|?] ? ?|]. split; [reflexivity|].
    split; [reflexivity|]. split; [reflexivity|].
    split; [|split; [reflexivity|split; reflexivity]].
    intros j. rewrite lookup_empty. split; [by intros [? ?]|lia].
  - destruct (handleGenerateClick_rejects_later service st style k Hs Ht Hi Hok Hfail)
      as (ref & rs & Href & Hlen & Hres & ->).
    assert (Hgen : ∀ j,
      generatedImages
        (ui (abort (broken_round (originalImages st) ref (selectedQuality st)
                      (rounds (originalImages st) ref (selectedQuality st)
                         (first_round st style ref) 1 rs) (S k)))) !! j
      = (ref :: rs) !! j).
    { intros j. apply first_rounds_generated. }
    exists (ref :: rs). simpl fst.
    split; [simpl; lia|]. split; [by apply resolved_step_call|].
    split; [|split; [|split; [exact Hgen|split; [|split; [reflexivity|split; reflexivity]]]]].
    + cbn -[js]. rewrite rounds_log, (imap_step_events_S st style). cbn -[js].
      rewrite <- ?app_assoc. cbn -[js]. rewrite <- ?app_assoc. reflexivity.
    + cbn -[js]. rewrite rounds_issued. simpl. lia.
    + intros j. rewrite Hgen, lookup_lt_is_Some. simpl. lia.
Qed.

Lemma handleGenerateClick_failure_witness :
  let w := (handleGenerateClick (rejectingAt 2) (start threeUploads)).1 in
  (selectedStyle threeUploads = Some (js "Industrial")
   ∧ truthy (js "Industrial") = true
   ∧ 2 < length (originalImages threeUploads)
   ∧ (∀ n c, n < 2 → is_Some (rejectingAt 2 n c))
   ∧ ∀ c, rejectingAt 2 2 c = None)
  ∧ issued w = 3
  ∧ is_Some (generatedImages (ui w) !! 0)
  ∧ is_Some (generatedImages (ui w) !! 1)
  ∧ ¬ is_Some (generatedImages (ui w) !! 2)
  ∧ error (ui w) = Some (js "Failed to generate all images. Please try again.")
  ∧ appState (ui w) = initial
  ∧ generationProgress (ui w) = None.
Proof.
  intros w.
  assert (Hs : selectedStyle threeUploads = Some (js "Industrial")) by reflexivity.
  assert (Ht : truthy (js "Industrial") = true) by reflexivity.
  assert (Hi : 2 < length (originalImages threeUploads)) by (simpl; lia).
  assert (Hok : ∀ n c, n < 2 → is_Some (rejectingAt 2 n c)).
  { intros [|[|n]] c Hn; [eexists; reflexivity|eexists; reflexivity|lia]. }
  assert (Hfail : ∀ c, rejectingAt 2 2 c = None) by reflexivity.
  split; [by split; [|split; [|split; [|split]]]|].
  destruct (handleGenerateClick_failure (rejectingAt 2) threeUploads (js "Industrial") 2
              Hs Ht Hi Hok Hfail)
    as (results & _ & _ & _ & Hissued & _ & Hsome & Herr & Hstate & Hprog).
  split; [exact Hissued|].
  split; [apply Hsome; lia|]. split; [apply Hsome; lia|].
  split; [intros H%Hsome; lia|].
  split; [exact Herr|]. split; [exact Hstate|exact Hprog].
Defined.
(** ** The message parser *)

Lemma startsWith_take (s l : jsstring) :
  startsWith s l = true → take (length l) s = l.
Proof.
  revert s. induction l as [|c l IH]; intros [|d s]; simpl; try done.
  intros [Hc Hl]%andb_prop. apply N.eqb_eq in Hc as ->. f_equal. by apply IH.
Qed.

Lemma startsWith_app (l s : jsstring) : startsWith (l ++ s) l = true.
Proof. induction l as [|c l IH]; simpl; [done|]. rewrite N.eqb_refl. exact IH. Qed.

Lemma take_app_drop_take {A} (a b : nat) (s : list A) :
  take (a + b) s = take a s ++ take b (drop a s).
Proof.
  revert s. induction a as [|a IH]; intros s; simpl.
  - by rewrite drop_0.
  - destruct s as [|x s]; simpl; [by rewrite take_nil|]. f_equal. apply IH.
Qed.

Lemma dotsMatch_stop (rest : jsstring → option (list jsstring * nat))
    (taken s : jsstring) gs n :
  match rest s with
  | Some (groups, n0) => Some (taken :: groups, length taken + n0)
  | None => None
  end = Some (gs, n) →
  dotsMatch rest taken s gs n.
Proof.
  destruct (rest s) as [[gs' n']|] eqn:E; [|done].
  intros [= <- <-]. exists [], gs', n'. rewrite app_nil_r. simpl.
  split; [done|]. split; [lia|]. split; [by rewrite take_0|]. by split.
Qed.

Lemma dotsMatch_step (rest : jsstring → option (list jsstring * nat))
    (taken s : jsstring) (c : N) gs n :
  isLineTerminator c = false →
  dotsMatch rest (taken ++ [c]) s gs n →
  dotsMatch rest taken (c :: s) gs n.
Proof.
  intros Hc (g & gs' & n' & -> & -> & Htake & Hg & Hrest).
  exists (c :: g), gs', n'. rewrite <- app_assoc, length_app. simpl.
  split; [done|]. split; [lia|]. split; [by rewrite Htake|].
  split; [by rewrite Hc|done].
Qed.

Lemma lazyDots_inv (rest : jsstring → option (list jsstring * nat))
    (taken s : jsstring) gs n :
  lazyDots rest taken s = Some (gs, n) → dotsMatch rest taken s gs n.
Proof.
  revert taken. induction s as [|c s IH]; intros taken; simpl.
  - destruct (rest []) as [[gs' n']|] eqn:E; [|done].
    intros H. apply dotsMatch_stop. by rewrite E.
  - destruct (rest (c :: s)) as [[gs' n']|] eqn:E.
    + intros H. apply dotsMatch_stop. by rewrite E.
    + destruct (isLineTerminator c) eqn:Hc; [done|].
      intros H. apply dotsMatch_step; [done|]. by apply IH.
Qed.

Lemma greedyDots_inv (rest : jsstring → option (list jsstring * nat))
    (taken s : jsstring) gs n :
  greedyDots rest taken s = Some (gs, n) → dotsMatch rest taken s gs n.
Proof.
  revert taken. induction s as [|c s IH]; intros taken; cbn [greedyDots].
  - apply dotsMatch_stop.
  - destruct (isLineTerminator c) eqn:Hc; [apply dotsMatch_stop|].
    destruct (greedyDots rest (taken ++ [c]) s) as [r|] eqn:E; [|apply dotsMatch_stop].
    intros [= ->]. apply dotsMatch_step; [done|]. by apply IH.
Qed.

(** A match is the pattern with its groups filled in: the first [n] code
    units of [s] are the literals and the captured groups, in order, and
    no group holds a line terminator. *)
Lemma matchHere_sound (pattern : list token) (s : jsstring) gs n :
  matchHere pattern s = Some (gs, n) →
  take n s = instantiate pattern gs
  ∧ n ≤ length s
  ∧ length gs = groupCount pattern
  ∧ Forall (fun g => forallb (fun c => negb (isLineTerminator c)) g = true) gs.
Proof.
  assert (Hdots : ∀ pattern,
    (∀ s gs n, matchHere pattern s = Some (gs, n) →
       take n s = instantiate pattern gs ∧ n ≤ length s
       ∧ length gs = groupCount pattern
       ∧ Forall (fun g => forallb (fun c => negb (isLineTerminator c)) g = true) gs) →
    ∀ s gs n, dotsMatch (matchHere pattern) [] s gs n →
      take n s = (default [] (head gs)) ++ instantiate pattern (tail gs)
      ∧ n ≤ length s
      ∧ length gs = S (groupCount pattern)
      ∧ Forall (fun g => forallb (fun c => negb (isLineTerminator c)) g = true) gs).
  { clear. intros pattern IH s gs n (g & gs' & n' & -> & -> & Htake & Hg & Hrest).
    apply IH in Hrest as (E1 & E2 & E3 & E4). rewrite length_drop in E2. simpl.
    assert (length g ≤ length s).
    { rewrite <- Htake at 1. rewrite length_take. lia. }
    split; [by rewrite take_app_drop_take, Htake, E1|].
    split; [lia|]. split; [lia|]. by constructor. }
  revert s gs n. induction pattern as [|[l| |] pattern IH]; intros s gs n; simpl.
  - intros [= <- <-]. rewrite take_0. split; [done|]. split; [lia|]. by split.
  - destruct (startsWith s l) eqn:Hl; [|done].
    destruct (matchHere pattern (drop (length l) s)) as [[gs' n']|] eqn:E; [|done].
    intros [= <- <-]. apply IH in E as (E1 & E2 & E3 & E4). rewrite length_drop in E2.
    pose proof (startsWith_length _ _ Hl).
    split; [|split; [lia|done]].
    by rewrite take_app_drop_take, (startsWith_take _ _ Hl), E1.
  - intros H%lazyDots_inv. apply Hdots in H as (E1 & E2 & E3 & E4); [|exact IH].
    destruct gs as [|g gs]; [done|]. done.
  - intros H%greedyDots_inv. apply Hdots in H as (E1 & E2 & E3 & E4); [|exact IH].
    destruct gs as [|g gs]; [done|]. done.
Qed.

Lemma matchHere_shoppingLink (s : jsstring) gs n :
  matchHere shoppingLinkRegex s = Some (gs, n) →
  ∃ name url description,
    gs = [name; url; description]
    ∧ take n s = itemText name url description
    ∧ n ≤ length s.
Proof.
  intros (Htxt & Hn & Hlen & _)%matchHere_sound.
  destruct gs as [|name [|url [|description [|? ?]]]]; try done.
  exists name, url, description. split; [done|]. split; [|done].
  rewrite Htxt. unfold itemText, shoppingLinkRegex. cbn [instantiate].
  by rewrite app_nil_r.
Qed.

Lemma search_sound (s : jsstring) (i : nat) (m : Match) :
  search shoppingLinkRegex s i = Some m →
  ∃ k name url description,
    index m = i + k
    ∧ k ≤ length s
    ∧ groups m = [name; url; description]
    ∧ take (lastIndex m - index m) (drop k s) = itemText name url description.
Proof.
  revert i. induction s as [|c s IH]; intros i; cbn [search];
    (destruct (matchHere shoppingLinkRegex _) as [[gs n]|] eqn:E;
     [intros [= <-];
      apply matchHere_shoppingLink in E as (name & url & d & -> & Ht & Hn);
      exists 0, name, url, d; cbn [index groups lastIndex];
      rewrite Nat.add_0_r, drop_0; replace (i + n - i) with n by lia;
      split; [done|]; split; [lia|]; by split|]).
  - done.
  - intros H. apply IH in H as (k & name & url & d & Hi & Hk & Hg & Ht).
    exists (S k), name, url, d. simpl. split; [lia|]. split; [lia|]. by split.
Qed.

Lemma exec_sound (text : jsstring) (from : nat) (m : Match) :
  exec shoppingLinkRegex text from = Some m →
  ∃ name url description,
    shoppingItem m = ShoppingItem name url description
    ∧ take (lastIndex m - index m) (drop (index m) text)
      = itemText name url description.
Proof.
  unfold exec. destruct (Nat.leb_spec from (length text)) as [Hle|Hgt]; [|done].
  intros (k & name & url & d & Hi & Hk & Hg & Ht)%search_sound.
  exists name, url, d. unfold shoppingItem. rewrite Hg. simpl.
  split; [reflexivity|]. rewrite drop_drop, <- Hi in Ht. exact Ht.
Qed.

Lemma drop_split3 {A} (a b c : nat) (l : list A) :
  a ≤ b ≤ c →
  drop a l = take (b - a) (drop a l) ++ take (c - b) (drop b l) ++ drop c l.
Proof.
  intros Habc.
  rewrite <- (take_drop (b - a) (drop a l)) at 1. f_equal.
  rewrite drop_drop. replace (a + (b - a)) with b by lia.
  rewrite <- (take_drop (c - b) (drop b l)) at 1. f_equal.
  rewrite drop_drop. f_equal. lia.
Qed.

(** The parts, put back in order, are the text: the literal runs are kept
    as they are and every item stands for the text it matched. *)
Lemma scan_text (text : jsstring) (from : nat) (parts : list part) :
  from ≤ length text →
  concat (map partText (scan text from parts))
  = concat (map partText parts) ++ drop from text.
Proof.
  funelim (scan text from parts); intros Hle.
  - match goal with IH : _ → concat _ = _ |- _ => rename IH into IHscan end.
    pose proof (exec_bounds _ _ _ E) as (Hfrom & Hidx & Hlast).
    destruct (exec_sound _ _ _ E) as (name & url & d & Hitem & Htxt).
    rewrite IHscan by lia.
    rewrite !map_app, !concat_app, <- !app_assoc. f_equal.
    rewrite Hitem. cbn [map concat partText]. rewrite app_nil_r, <- Htxt.
    rewrite (drop_split3 from (index m) (lastIndex m)) by lia.
    destruct (Nat.ltb_spec from (index m)) as [Hlt|Hge]; cbn [map concat partText].
    + by rewrite app_nil_r.
    + replace (index m - from) with 0 by lia. by rewrite take_0.
  - rewrite map_app, concat_app. f_equal.
    destruct (Nat.ltb_spec from (length text0)) as [Hlt|Hge]; simpl.
    + by rewrite app_nil_r.
    + by rewrite drop_ge by lia.
Qed.

Lemma split_lines_nonempty (s : jsstring) : split_lines s ≠ [].
Proof.
  induction s as [|c s IH]; simpl; [done|].
  destruct (c =? 10)%N; [done|]. by destruct (split_lines s).
Qed.

Lemma join_split_lines (s : jsstring) : join_lines (split_lines s) = s.
Proof.
  induction s as [|c s IH]; simpl; [done|].
  destruct (N.eqb_spec c 10) as [->|Hc].
  - pose proof (split_lines_nonempty s).
    simpl. destruct (split_lines s) as [|l ls]; [done|]. simpl in *. by rewrite IH.
  - pose proof (split_lines_nonempty s).
    destruct (split_lines s) as [|l ls]; [done|].
    destruct ls as [|l' ls]; simpl in *; by rewrite <- IH.
Qed.

Lemma nodeText_render (p : part) : nodeText (render p) = partText p.
Proof. destruct p; simpl; [apply join_split_lines|done]. Qed.

Lemma includes_nonempty (s l : jsstring) :
  includes s l = true → l ≠ [] → s ≠ [].
Proof. intros H Hl ->. simpl in H. destruct l; [done|]. done. Qed.

Lemma scan_no_match (text : jsstring) (from : nat) (parts : list part) :
  exec shoppingLinkRegex text from = None →
  scan text from parts
  = parts ++ (if from <? length text then [Str (substring text from None)] else []).
Proof.
  funelim (scan text from parts); intros Hnone; [congruence|reflexivity].
Qed.

Lemma ParsedMessage_text (message : ChatMessage) :
  concat (map nodeText (ParsedMessage message)) = text message.
Proof.
  unfold ParsedMessage.
  destruct (_ || _).
  - simpl. by rewrite app_nil_r, join_split_lines.
  - rewrite map_map, (map_ext _ partText) by apply nodeText_render.
    rewrite scan_text by lia. simpl. by rewrite drop_0.
Qed.
(** ** The chat *)

Lemma exchanges_app (l : list ChatMessage) (u m : ChatMessage) :
  role u = user → role m = model →
  exchanges l = true → exchanges (l ++ [u; m]) = true.
Proof.
  intros Hu Hm. remember (length l) as n eqn:Hn. revert l Hn.
  induction n as [n IH] using lt_wf_ind. intros l Hn.
  destruct l as [|a [|b l]]; simpl.
  - by rewrite Hu, Hm.
  - by destruct (role a).
  - destruct (role a); [|done]. destruct (role b); [done|].
    apply (IH (length l)); [simpl in Hn; lia|done].
Qed.

Ltac chat_run :=
  unfold handleSendMessage, try_catch_finally, bind, update, emit, append, await, ret;
  cbn -[js acknowledgement errorText].

Lemma handleSendMessage_unselected (service : Service) (now later : nat)
    (message : jsstring) (isShoppingQuery : bool) (st : State) :
  selectedResultIndex st = None →
  handleSendMessage service now later message isShoppingQuery (start st)
  = (start st, Some tt).
Proof. intros Hsel. unfold handleSendMessage. simpl. by rewrite Hsel. Qed.

Lemma handleSendMessage_selected (service : Service) (now later : nat)
    (message : jsstring) (isShoppingQuery : bool) (st : State) (s : nat) :
  selectedResultIndex st = Some s →
  let c := chatCall st s message isShoppingQuery in
  handleSendMessage service now later message isShoppingQuery (start st)
  = (sent st s now later message c (service 0 c), Some tt).
Proof.
  intros Hsel c. subst c. unfold chatCall. chat_run. rewrite Hsel.
  destruct (chatMode st); [destruct (generatedImages st !! s) as [b|]; 
    [destruct (truthy b); [destruct isShoppingQuery|]|]|];
    cbn -[js acknowledgement errorText];
    match goal with |- context [service 0 ?c] => destruct (service 0 c) end;
    reflexivity.
Qed.

(** C4.  Without a selected result index a send operation changes nothing
    and issues no call.  With one, the user message is appended first,
    then exactly one call is issued, and the operation ends by appending
    exactly one model message: the response text of the call (the fixed
    acknowledgement when the call is a refinement) when it resolves, the
    fixed apology when it rejects.  The transcript gains the user message
    followed by that model message, so a transcript made of user/model
    exchanges stays one. *)
Theorem handleSendMessage_transcript (service : Service) (now later : nat)
    (message : jsstring) (isShoppingQuery : bool) (st : State) :
  let w := (handleSendMessage service now later message isShoppingQuery (start st)).1 in
  let u := {| id_ := now; role := user; text := message |} in
  (selectedResultIndex st = None → w = start st)
  ∧ (∀ s, selectedResultIndex st = Some s →
       ∃ c reply commits,
         let m := {| id_ := later + 1; role := model; text := reply |} in
         c = chatCall st s message isShoppingQuery
         ∧ log w = [Append u; Issue c] ++ commits ++ [Append m]
         ∧ Forall (fun e => ∃ i image, e = Commit i image) commits
         ∧ issued w = 1
         ∧ chatMessages (ui w) = chatMessages st ++ [u; m]
         ∧ (∀ r, service 0 c = Some r →
              reply = if isRefinement c then acknowledgement else r)
         ∧ (service 0 c = None → reply = errorText))
  ∧ (exchanges (chatMessages st) = true → exchanges (chatMessages (ui w)) = true).
Proof.
  intros w u. subst w.
  destruct (selectedResultIndex st) as [s|] eqn:Hsel.
  - rewrite (handleSendMessage_selected service now later message isShoppingQuery st s Hsel).
    cbn [fst].
    set (c := chatCall st s message isShoppingQuery).
    split; [done|]. split.
    + intros s' [= <-].
      exists c, (replyText c (service 0 c)).
      eexists. split; [reflexivity|]. split; [reflexivity|].
      split; [|split; [reflexivity|split; [|split]]].
      * destruct (service 0 c); [destruct (isRefinement c)|]; simpl;
          repeat constructor. by exists s, l.
      * cbn -[replyText]. rewrite <- app_assoc. reflexivity.
      * intros r ->. reflexivity.
      * intros ->. reflexivity.
    + intros Hex. cbn -[replyText]. rewrite <- app_assoc.
      by apply exchanges_app.
  - rewrite (handleSendMessage_unselected service now later message isShoppingQuery st Hsel).
    split; [done|]. split; [done|]. done.
Qed.

Lemma handleSendMessage_transcript_witness :
  let w := (handleSendMessage resolving 100 200 (js "Make the walls light blue") false
              (start gallery)).1 in
  (selectedResultIndex gallery = Some 2 ∧ exchanges (chatMessages gallery) = true)
  ∧ exchanges (chatMessages (ui w)) = true
  ∧ ∃ c reply commits,
      log w = [Append {| id_ := 100; role := user; text := js "Make the walls light blue" |};
               Issue c]
              ++ commits
              ++ [Append {| id_ := 201; role := model; text := reply |}].
Proof.
  intros w.
  assert (Hsel : selectedResultIndex gallery = Some 2) by reflexivity.
  assert (Hex : exchanges (chatMessages gallery) = true) by reflexivity.
  split; [by split|].
  destruct (handleSendMessage_transcript resolving 100 200 (js "Make the walls light blue")
              false gallery) as (_ & Hsome & Hkeeps).
  split; [exact (Hkeeps Hex)|].
  destruct (Hsome 2 Hsel) as (c & reply & commits & _ & Hlog & _).
  exists c, reply, commits. exact Hlog.
Defined.

(** C5.  A design-mode send that is not a shopping query, with result index
    [s] selected and a generated image at [s], whose refinement call
    resolves: the result replaces the generated image at [s], every other
    generated image is as it was, the uploaded images are as they were,
    and the transcript gains the user message and the fixed
    acknowledgement. *)
Theorem handleSendMessage_refines (service : Service) (now later : nat)
    (message baseImage refinedImage : jsstring) (st : State) (s : nat) :
  selectedResultIndex st = Some s →
  chatMode st = design →
  generatedImages st !! s = Some baseImage →
  truthy baseImage = true →
  service 0 (refineImageWithText baseImage message (selectedQuality st))
  = Some refinedImage →
  let w := (handleSendMessage service now later message false (start st)).1 in
  let u := {| id_ := now; role := user; text := message |} in
  let m := {| id_ := later + 1; role := model; text := acknowledgement |} in
  log w = [Append u;
           Issue (refineImageWithText baseImage message (selectedQuality st));
           Commit s refinedImage;
           Append m]
  ∧ generatedImages (ui w) = <[ s := refinedImage ]> (generatedImages st)
  ∧ generatedImages (ui w) !! s = Some refinedImage
  ∧ (∀ j, j ≠ s → generatedImages (ui w) !! j = generatedImages st !! j)
  ∧ originalImages (ui w) = originalImages st
  ∧ chatMessages (ui w) = chatMessages st ++ [u; m].
Proof.
  intros Hsel Hmode Hbase Htruthy Hres w u m. subst w.
  rewrite (handleSendMessage_selected service now later message false st s Hsel).
  unfold chatCall. rewrite Hmode, Hbase, Htruthy, Hres.
  cbn -[acknowledgement].
  split; [reflexivity|]. split; [reflexivity|].
  split; [apply lookup_insert_eq|].
  split; [by intros j Hj; apply lookup_insert_ne|].
  split; [reflexivity|]. by rewrite <- app_assoc.
Qed.

Lemma handleSendMessage_refines_witness :
  let message := js "Make the walls light blue" in
  let w := (handleSendMessage resolving 100 200 message false (start gallery)).1 in
  (selectedResultIndex gallery = Some 2
   ∧ chatMode gallery = design
   ∧ generatedImages gallery !! 2 = Some (js "design-c")
   ∧ truthy (js "design-c") = true
   ∧ resolving 0 (refineImageWithText (js "design-c") message (selectedQuality gallery))
     = Some (js "styled-" ++ [0%N]))
  ∧ generatedImages (ui w) !! 2 = Some (js "styled-" ++ [0%N])
  ∧ generatedImages (ui w) !! 0 = Some (js "design-a")
  ∧ generatedImages (ui w) !! 1 = Some (js "design-b")
  ∧ originalImages (ui w) = originalImages gallery
  ∧ chatMessages (ui w)
    = [ {| id_ := 100; role := user; text := message |};
        {| id_ := 201; role := model; text := acknowledgement |} ].
Proof.
  intros message w.
  assert (Hsel : selectedResultIndex gallery = Some 2) by reflexivity.
  assert (Hmode : chatMode gallery = design) by reflexivity.
  assert (Hbase : generatedImages gallery !! 2 = Some (js "design-c")) by reflexivity.
  assert (Htruthy : truthy (js "design-c") = true) by reflexivity.
  assert (Hres : resolving 0 (refineImageWithText (js "design-c") message
                                (selectedQuality gallery))
                 = Some (js "styled-" ++ [0%N])) by reflexivity.
  split; [by split; [|split; [|split; [|split]]]|].
  destruct (handleSendMessage_refines resolving 100 200 message (js "design-c")
              (js "styled-" ++ [0%N]) gallery 2 Hsel Hmode Hbase Htruthy Hres)
    as (_ & _ & Hs & Hothers & Horig & Hchat).
  subst w. split; [exact Hs|].
  split; [rewrite (Hothers 0) by lia; reflexivity|].
  split; [rewrite (Hothers 1) by lia; reflexivity|].
  split; [exact Horig|exact Hchat].
Defined.

(** [includes] is containment: the search string occurs somewhere in [s]. *)
Lemma startsWith_spec (s l : jsstring) :
  startsWith s l = true ↔ ∃ post, s = l ++ post.
Proof.
  split.
  - intros H. exists (drop (length l) s).
    rewrite <- (startsWith_take _ _ H) at 1. by rewrite take_drop.
  - intros [post ->]. apply startsWith_app.
Qed.

Lemma includes_spec (s l : jsstring) :
  includes s l = true ↔ ∃ pre post, s = pre ++ l ++ post.
Proof.
  split.
  - induction s as [|c s IH]; simpl.
    + rewrite orb_false_r. intros [post ->]%startsWith_spec. by exists [], post.
    + intros [H|H]%orb_prop.
      * apply startsWith_spec in H as [post ->]. by exists [], post.
      * destruct (IH H) as (pre & post & ->). by exists (c :: pre), post.
  - intros (pre & post & ->). induction pre as [|c pre IH]; simpl.
    + assert (Hunfold : ∀ t, startsWith t l = true → includes t l = true).
      { intros [|? ?] Ht; simpl; by rewrite Ht. }
      apply Hunfold, startsWith_app.
    + by rewrite IH, orb_true_r.
Qed.



(** ** Preferences *)

Lemma truthy_opt_selectable (o : option jsstring) :
  selectable o → truthy_opt o = match o with Some _ => true | None => false end.
Proof. destruct o as [[|c s]|]; simpl; done. Qed.

(** C8.  Saving the selections and loading them when the component mounts
    gives back the style, palette, atmosphere and quality that were saved;
    loaded over any state, a field that is absent or null in the stored
    record leaves the selection of that state as it is; clearing removes
    the stored record and resets the style, palette and atmosphere to unset
    and the quality to [standard]. *)
Theorem preferences_round_trip (st : State) :
  selectable (selectedStyle st) →
  selectable (selectedColorPalette st) →
  selectable (selectedAtmosphere st) →
  selections (loadPreferences (handleSavePreferences st) initialState) = selections st
  ∧ (∀ st0 savedPrefs,
       let st' := loadPreferences (Some (Parsed savedPrefs)) st0 in
       (style savedPrefs = None → selectedStyle st' = selectedStyle st0)
       ∧ (colorPalette savedPrefs = None →
            selectedColorPalette st' = selectedColorPalette st0)
       ∧ (atmosphere savedPrefs = None → selectedAtmosphere st' = selectedAtmosphere st0)
       ∧ (quality savedPrefs = None → selectedQuality st' = selectedQuality st0))
  ∧ (handleClearPreferences st).1 = None
  ∧ selections (handleClearPreferences st).2 = (None, None, None, standard)
  ∧ selections (loadPreferences (handleClearPreferences st).1 initialState)
    = (None, None, None, standard).
Proof.
  intros Hs Hp Ha.
  split; [|split; [|split; [done|split; done]]].
  - unfold selections, loadPreferences, handleSavePreferences.
    cbn [style colorPalette atmosphere quality].
    rewrite !truthy_opt_selectable by done.
    destruct (selectedStyle st), (selectedColorPalette st), (selectedAtmosphere st);
      reflexivity.
  - intros st0 [sty pal atm qual] st'. subst st'. unfold loadPreferences. simpl.
    split; [|split; [|split]]; intros ->; simpl;
      repeat match goal with
      | |- context [truthy_opt ?o] => destruct (truthy_opt o)
      | |- context [match ?o with Some _ => _ | None => _ end] => destruct o
      end; reflexivity.
Qed.

Lemma preferences_round_trip_witness :
  (selectable (selectedStyle scandinavian)
   ∧ selectable (selectedColorPalette scandinavian)
   ∧ selectable (selectedAtmosphere scandinavian))
  ∧ selections (loadPreferences (handleSavePreferences scandinavian) initialState)
    = (Some (js "Scandinavian"), Some (js "Neutral"), None, high)
  ∧ selections (handleClearPreferences scandinavian).2 = (None, None, None, standard).
Proof.
  assert (Hs : selectable (selectedStyle scandinavian)) by (vm_compute; discriminate).
  assert (Hp : selectable (selectedColorPalette scandinavian)) by (vm_compute; discriminate).
  assert (Ha : selectable (selectedAtmosphere scandinavian)) by (vm_compute; discriminate).
  split; [by split; [|split]|].
  destruct (preferences_round_trip scandinavian Hs Hp Ha) as (Hround & _ & _ & Hclear & _).
  split; [rewrite Hround; reflexivity|exact Hclear].
Defined.

(** ** Image ingestion *)

Lemma Promise_all_resolves {A} (promises : list (option A)) (values : list A) :
  promises = map Some values → Promise_all promises = Some values.
Proof.
  intros ->. induction values as [|x values IH]; simpl; [done|]. by rewrite IH.
Qed.

Lemma Promise_all_rejects {A} (promises : list (option A)) :
  None ∈ promises → Promise_all promises = None.
Proof.
  induction promises as [|p promises IH]; [by intros ?%elem_of_nil|].
  intros [<-|H]%elem_of_cons; simpl; [done|].
  rewrite (IH H). by destruct p.
Qed.

(** C9.  Files that are not image-typed play no part in an ingestion
    batch.  With no image-typed file the state is not changed.  When
    every accepted file decodes, the payloads are appended, in order, to
    the uploaded images and the generated images, run state, error, chat,
    selection and process panel are reset.  When one of them fails to
    decode, nothing of the batch is kept: only the error message is
    set. *)
Theorem processFiles_batches (files : list File) (st : State) :
  let imageFiles := List.filter isImageFile files in
  processFiles (Some files) st = processFiles (Some imageFiles) st
  ∧ processFiles None st = st
  ∧ (imageFiles = [] → processFiles (Some files) st = st)
  ∧ (∀ newImages,
       imageFiles ≠ [] →
       map readAsDataURL imageFiles = map Some newImages →
       let st' := processFiles (Some files) st in
       originalImages st' = originalImages st ++ newImages
       ∧ st' = resetGenerationState
                 (setOriginalImages (fun _ => originalImages st ++ newImages) st)
       ∧ generatedImages st' = ∅
       ∧ appState st' = initial
       ∧ error st' = None
       ∧ chatMessages st' = []
       ∧ selectedResultIndex st' = None
       ∧ showProcess st' = true)
  ∧ (∀ file,
       file ∈ imageFiles → readAsDataURL file = None →
       let st' := processFiles (Some files) st in
       st' = setError (Some (js "There was an error processing some of your images.")) st
       ∧ originalImages st' = originalImages st
       ∧ generatedImages st' = generatedImages st
       ∧ appState st' = appState st
       ∧ chatMessages st' = chatMessages st
       ∧ selectedResultIndex st' = selectedResultIndex st
       ∧ showProcess st' = showProcess st
       ∧ error st' = Some (js "There was an error processing some of your images.")).
Proof.
  intros imageFiles.
  assert (Hfilter : List.filter isImageFile imageFiles = imageFiles).
  { unfold imageFiles. clear. induction files as [|f files IH]; simpl; [done|].
    destruct (isImageFile f) eqn:Hf; simpl; [|done]. by rewrite Hf, IH. }
  assert (Hrun : processFiles (Some files) st
                 = if length imageFiles =? 0 then st
                   else match Promise_all (map readAsDataURL imageFiles) with
                        | Some newImages =>
                            resetGenerationState
                              (setOriginalImages
                                 (fun _ => originalImages st ++ newImages) st)
                        | None =>
                            setError
                              (Some (js "There was an error processing some of your images."))
                              st
                        end).
  { unfold processFiles. fold isImageFile. fold imageFiles.
    destruct (Nat.ltb_spec 0 (length files)) as [Hlt|Hge]; [done|].
    destruct files; [|simpl in Hge; lia]. reflexivity. }
  split; [|split; [done|split; [|split]]].
  - rewrite Hrun. unfold processFiles. fold isImageFile. rewrite Hfilter.
    destruct (Nat.ltb_spec 0 (length imageFiles)) as [Hlt|Hge]; [done|].
    destruct (Nat.eqb_spec (length imageFiles) 0); [done|lia].
  - intros Hnone. by rewrite Hrun, Hnone.
  - intros newImages Hne Hall st'. subst st'. rewrite Hrun.
    destruct (Nat.eqb_spec (length imageFiles) 0) as [H0|H0].
    { destruct imageFiles; [done|]. simpl in H0. lia. }
    rewrite (Promise_all_resolves _ _ Hall). by repeat split.
  - intros file Hin Hfail st'. subst st'. rewrite Hrun.
    destruct (Nat.eqb_spec (length imageFiles) 0) as [H0|H0].
    { destruct imageFiles; [by apply elem_of_nil in Hin|]. simpl in H0. lia. }
    rewrite Promise_all_rejects; [by repeat split|].
    rewrite <- Hfail. by apply list_elem_of_fmap_2.
Qed.

Lemma processFiles_batches_witness :
  let jpeg := {| type := js "image/jpeg"; readAsDataURL := None |} in
  let st' := processFiles (Some droppedFiles) gallery in
  (jpeg ∈ List.filter isImageFile droppedFiles ∧ readAsDataURL jpeg = None)
  ∧ originalImages st' = originalImages gallery
  ∧ generatedImages st' = generatedImages gallery
  ∧ selectedResultIndex st' = Some 2
  ∧ error st' = Some (js "There was an error processing some of your images.").
Proof.
  intros jpeg st'.
  assert (Hin : jpeg ∈ List.filter isImageFile droppedFiles).
  { apply list_elem_of_In. vm_compute. tauto. }
  assert (Hfail : readAsDataURL jpeg = None) by reflexivity.
  split; [by split|].
  destruct (processFiles_batches droppedFiles gallery) as (_ & _ & _ & _ & Hrej).
  destruct (Hrej jpeg Hin Hfail) as (_ & Ho & Hg & _ & _ & Hsel & _ & Herr).
  split; [exact Ho|]. split; [exact Hg|]. split; [exact Hsel|exact Herr].
Defined.

(** * Further properties *)

(** ** The generation run, whatever the service does *)

Section GenerationRuns.

Variable service : nat → call → option jsstring.
Variables (originals : list jsstring) (referenceImage : jsstring) (q : ImageQuality).

(** The loop runs its rounds until one rejects. *)
Lemma for_range_runs (count from : nat) (w : World) :
  ∃ rs,
    resolved service originals referenceImage q (issued w) from rs
    ∧ ((length rs = count
        ∧ for_range from count (loop_body service originals referenceImage q) w
          = (rounds originals referenceImage q w from rs, Some tt))
       ∨ (length rs < count
          ∧ for_range from count (loop_body service originals referenceImage q) w
            = (broken_round originals referenceImage q
                 (rounds originals referenceImage q w from rs) (from + length rs), None))).
Proof.
  revert from w. induction count as [|count IH]; intros from w.
  - exists []. split; [by intros [|?] ? ?|]. left. by split.
  - destruct (service (issued w)
                (applyStyleFromReference (originals !!! from) referenceImage q))
      as [r|] eqn:Hr.
    + destruct (IH (S from) (round originals referenceImage q w (from, r)))
        as (rs & Hres & Hrun).
      exists (r :: rs). split.
      * intros [|k] r' Hk; simpl in Hk.
        -- rewrite !Nat.add_0_r. congruence.
        -- specialize (Hres k r' Hk). simpl in Hres.
           replace (issued w + S k) with (S (issued w + k)) by lia.
           by replace (from + S k) with (S from + k) by lia.
      * assert (Hstep :
          for_range from (S count) (loop_body service originals referenceImage q) w
          = for_range (S from) count (loop_body service originals referenceImage q)
              (round originals referenceImage q w (from, r))).
        { simpl. unfold bind at 1. by rewrite (loop_body_resolves _ _ _ _ _ _ r Hr). }
        rewrite Hstep.
        destruct Hrun as [[Hlen ->]|[Hlen ->]]; [left|right]; (split; [simpl; lia|]).
        -- reflexivity.
        -- simpl. by replace (S (from + length rs)) with (from + S (length rs)) by lia.
    + exists []. split; [by intros [|?] ? ?|]. right. split; [simpl; lia|].
      simpl. unfold bind at 1. rewrite (loop_body_rejects _ _ _ _ _ _ Hr).
      by rewrite Nat.add_0_r.
Qed.

End GenerationRuns.

(** The worlds a started run can end in. *)
Lemma handleGenerateClick_runs (service : nat → call → option jsstring) (st : State)
    (style : jsstring) :
  selectedStyle st = Some style → truthy style = true →
  0 < length (originalImages st) →
  let w := (handleGenerateClick service (start st)).1 in
  w = abort (broken_first_round st style)
  ∨ ∃ ref rs,
      (w = finish (rounds (originalImages st) ref (selectedQuality st)
                     (first_round st style ref) 1 rs)
       ∧ S (length rs) = length (originalImages st))
      ∨ (w = abort (broken_round (originalImages st) ref (selectedQuality st)
                      (rounds (originalImages st) ref (selectedQuality st)
                         (first_round st style ref) 1 rs) (1 + length rs))
         ∧ S (length rs) < length (originalImages st)).
Proof.
  intros Hs Ht Hn w. subst w.
  destruct (service 0 (step_call st style [] 0)) as [ref|] eqn:Href.
  2:{ left. by rewrite (handleGenerateClick_rejects_first service st style Hs Ht Hn Href). }
  right. exists ref. simpl in Href.
  destruct (Nat.eqb_spec (length (originalImages st)) 1) as [H1|H1].
  - exists []. left. split; [|by rewrite H1].
    run_prologue st Hs Ht.
    destruct (Nat.eqb_spec (length (originalImages st)) 1) as [_|?]; [|lia].
    run_async. rewrite Href. cbn -[js].
    unfold finish, rounds, first_round, step_events. cbn -[js]. rewrite H1. reflexivity.
  - destruct (for_range_runs service (originalImages st) ref (selectedQuality st)
                (length (originalImages st) - 1) 1 (first_round st style ref))
      as (rs & _ & [[Hlen Hrun]|[Hlen Hrun]]); exists rs;
      [left|right]; (split; [|lia]);
      run_prologue st Hs Ht;
      (destruct (Nat.eqb_spec (length (originalImages st)) 1) as [?|_]; [lia|]);
      unfold try_catch_finally, bind at 1 2 3 4 5 6 7 8 9 10 11 12,
        update, emit, progress, await;
      cbn -[for_range lookup_total Nat.sub js];
      rewrite Href; cbn -[for_range lookup_total Nat.sub js];
      enter_loop service st style ref; rewrite Hrun.
    + unfold finish, emit. cbn -[lookup_total js rounds]. reflexivity.
    + unfold abort, emit. cbn -[lookup_total js rounds broken_round]. reflexivity.
Qed.

Ltac frame_rounds :=
  repeat match goal with
  | |- context [?f (ui (rounds ?o ?r ?q ?w ?from ?rs))] =>
      lazymatch f with
      | generatedImages => fail
      | generationProgress => fail
      | _ => change (f (ui (rounds o r q w from rs)))
               with (f (erase (ui (rounds o r q w from rs))));
             rewrite rounds_frame
      end
  end.

Lemma handleGenerateClick_no_upload (service : nat → call → option jsstring) (st : State) :
  originalImages st = [] →
  handleGenerateClick service (start st) = (start st, Some tt).
Proof.
  unfold handleGenerateClick. intros Hnil. cbn [ui start]. rewrite Hnil.
  by destruct (selectedStyle st).
Qed.

Lemma handleGenerateClick_no_style (service : nat → call → option jsstring) (st : State) :
  truthy_opt (selectedStyle st) = false →
  handleGenerateClick service (start st) = (start st, Some tt).
Proof.
  unfold handleGenerateClick, truthy_opt. intros Hno. cbn [ui start].
  destruct (selectedStyle st) as [style|]; [|reflexivity].
  destruct (length (originalImages st) =? 0); [reflexivity|]. by rewrite Hno.
Qed.

(** X1.  Without an upload, or without a style (none selected, or the empty
    string), handleGenerateClick returns at once: the state is not changed
    and no call is issued, whatever the service. *)
Theorem handleGenerateClick_guard (service : nat → call → option jsstring) (st : State) :
  ¬ canGenerate st →
  handleGenerateClick service (start st) = (start st, Some tt).
Proof.
  unfold canGenerate. intros Hno.
  destruct (originalImages st) as [|x l] eqn:Ho.
  { by apply handleGenerateClick_no_upload. }
  destruct (truthy_opt (selectedStyle st)) eqn:Ht.
  { exfalso. by apply Hno. }
  by apply handleGenerateClick_no_style.
Qed.

Lemma handleGenerateClick_guard_witness :
  ¬ canGenerate (handleSelectStyle (js "Industrial") threeUploads)
  ∧ handleGenerateClick resolving (start (handleSelectStyle (js "Industrial") threeUploads))
    = (start (handleSelectStyle (js "Industrial") threeUploads), Some tt).
Proof.
  assert (Hno : ¬ canGenerate (handleSelectStyle (js "Industrial") threeUploads)).
  { intros [_ Hs]. vm_compute in Hs. discriminate. }
  split; [exact Hno|].
  exact (handleGenerateClick_guard resolving _ Hno).
Defined.

(** X2.  A run that starts, whatever the service does: it issues at least
    one call and at most one per upload; it leaves the uploads, the four
    selections and the process panel as they were; it ends with an empty
    transcript, no selected result, the design chat mode and the progress
    cleared; every generated image it leaves belongs to an upload.  Either
    it ends [ready] with no error and an image for every upload, or it ends
    [initial] with the batch error and images for the steps before the call
    that rejected, the last call issued. *)
Theorem handleGenerateClick_outcome (service : nat → call → option jsstring) (st : State) :
  canGenerate st →
  let total := length (originalImages st) in
  let w := (handleGenerateClick service (start st)).1 in
  inputs (ui w) = inputs st
  ∧ chatMessages (ui w) = []
  ∧ selectedResultIndex (ui w) = None
  ∧ chatMode (ui w) = design
  ∧ isChatLoading (ui w) = isChatLoading st
  ∧ generationProgress (ui w) = None
  ∧ 1 ≤ issued w ≤ total
  ∧ aligned (ui w)
  ∧ ((appState (ui w) = ready ∧ error (ui w) = None ∧ issued w = total
      ∧ ∀ i, is_Some (generatedImages (ui w) !! i) ↔ i < total)
     ∨ (appState (ui w) = initial
        ∧ error (ui w) = Some (js "Failed to generate all images. Please try again.")
        ∧ ∀ i, is_Some (generatedImages (ui w) !! i) ↔ i < issued w - 1)).
Proof.
  intros [Hne Hstyle] total w.
  destruct (selectedStyle st) as [style|] eqn:Hs; [|done]. simpl in Hstyle.
  assert (Hn : 0 < length (originalImages st)).
  { destruct (originalImages st); [done|simpl; lia]. }
  destruct (handleGenerateClick_runs service st style Hs Hstyle Hn)
    as [Hw|(ref & rs & [[Hw Htot]|[Hw Hlen]])];
    fold w in Hw; rewrite Hw; clear Hw; unfold aligned, inputs, selections.
  - cbn -[js].
    split; [reflexivity|]. split; [reflexivity|]. split; [reflexivity|].
    split; [reflexivity|]. split; [reflexivity|]. split; [reflexivity|].
    split; [fold total; lia|]. split; [by intros i [? ?%lookup_empty_Some]|].
    right. split; [reflexivity|]. split; [reflexivity|].
    intros i. rewrite lookup_empty. split; [by intros [? ?]|lia].
  - cbn -[js rounds]. frame_rounds. cbn -[js rounds]. rewrite ?rounds_issued.
    assert (Hgen : ∀ i, is_Some (generatedImages
                     (ui (rounds (originalImages st) ref (selectedQuality st)
                            (first_round st style ref) 1 rs)) !! i)
                   ↔ i < total).
    { intros i. rewrite first_rounds_generated, lookup_lt_is_Some. simpl.
      fold total in Htot. lia. }
    split; [reflexivity|]. split; [reflexivity|]. split; [reflexivity|].
    split; [reflexivity|]. split; [reflexivity|]. split; [reflexivity|].
    cbn [issued first_round]. fold total in Htot.
    split; [lia|]. split; [by intros i Hi%Hgen|].
    left. split; [reflexivity|]. split; [reflexivity|]. split; [lia|exact Hgen].
  - cbn -[js rounds]. frame_rounds. cbn -[js rounds]. rewrite ?rounds_issued.
    assert (Hgen : ∀ i, is_Some (generatedImages
                     (ui (rounds (originalImages st) ref (selectedQuality st)
                            (first_round st style ref) 1 rs)) !! i)
                   ↔ i < S (length rs)).
    { intros i. by rewrite first_rounds_generated, lookup_lt_is_Some. }
    split; [reflexivity|]. split; [reflexivity|]. split; [reflexivity|].
    split; [reflexivity|]. split; [reflexivity|]. split; [reflexivity|].
    cbn [issued first_round]. fold total in Hlen.
    split; [lia|]. split; [intros i Hi%Hgen; lia|].
    right. split; [reflexivity|]. split; [reflexivity|].
    intros i. rewrite Hgen. lia.
Qed.

Lemma handleGenerateClick_outcome_witness :
  let w := (handleGenerateClick (rejectingAt 1) (start threeUploads)).1 in
  canGenerate threeUploads
  ∧ 1 ≤ issued w ≤ 3
  ∧ inputs (ui w) = inputs threeUploads.
Proof.
  intros w.
  assert (Hcan : canGenerate threeUploads).
  { split; [intros Hnil; vm_compute in Hnil; discriminate | vm_compute; reflexivity]. }
  split; [exact Hcan|].
  destruct (handleGenerateClick_outcome (rejectingAt 1) threeUploads Hcan)
    as (Hin & _ & _ & _ & _ & _ & Hissued & _).
  split; [exact Hissued | exact Hin].
Defined.

(** ** Removal, again *)

Lemma State_eq (st1 st2 : State) :
  originalImages st1 = originalImages st2 →
  generatedImages st1 = generatedImages st2 →
  selectedResultIndex st1 = selectedResultIndex st2 →
  appState st1 = appState st2 →
  generationProgress st1 = generationProgress st2 →
  selectedStyle st1 = selectedStyle st2 →
  selectedColorPalette st1 = selectedColorPalette st2 →
  selectedAtmosphere st1 = selectedAtmosphere st2 →
  selectedQuality st1 = selectedQuality st2 →
  error st1 = error st2 →
  chatMessages st1 = chatMessages st2 →
  isChatLoading st1 = isChatLoading st2 →
  chatMode st1 = chatMode st2 →
  showProcess st1 = showProcess st2 →
  st1 = st2.
Proof. destruct st1, st2; simpl; intros; subst; reflexivity. Qed.

Lemma removeSelection_Some (k : nat) (sel : option nat) (s' : nat) :
  removeSelection k sel = Some s' →
  sel = Some (if decide (s' < k) then s' else S s').
Proof.
  destruct sel as [s|]; simpl; [|done].
  destruct (Nat.eqb_spec s k); [done|].
  destruct (Nat.eqb_spec s 0); destruct (Nat.ltb_spec k s); simpl;
    intros [= <-]; f_equal; case_decide; lia.
Qed.

Lemma removeSelection_commute (i j : nat) (sel : option nat) :
  i ≤ j →
  removeSelection i (removeSelection (S j) sel)
  = removeSelection j (removeSelection i sel).
Proof.
  intros Hij. destruct sel as [s|]; [|done]. unfold removeSelection.
  repeat (match goal with
          | |- context [?a =? ?b] => destruct (Nat.eqb_spec a b)
          | |- context [?a <? ?b] => destruct (Nat.ltb_spec a b)
          end; simpl); try done; try (f_equal; lia); lia.
Qed.

Lemma lookup_handleRemoveImage_original (k j : nat) (st : State) :
  originalImages (handleRemoveImage k st) !! j
  = originalImages st !! (if decide (j < k) then j else S j).
Proof.
  unfold handleRemoveImage. simpl.
  rewrite Array_filter_remove by lia. rewrite Nat.sub_0_r. apply lookup_remove_at.
Qed.

Lemma lookup_handleRemoveImage_generated (k j : nat) (st : State) :
  generatedImages (handleRemoveImage k st) !! j
  = generatedImages st !! (if decide (j < k) then j else S j).
Proof. unfold handleRemoveImage. simpl. apply lookup_removeGenerated. Qed.

(** X3.  Removals commute, up to the shift of the indices: removing the
    upload at [j + 1] and then the one at [i <= j] leaves the same state as
    removing the one at [i] and then the one that has moved to [j]. *)
Theorem handleRemoveImage_commute (i j : nat) (st : State) :
  i ≤ j →
  handleRemoveImage i (handleRemoveImage (S j) st)
  = handleRemoveImage j (handleRemoveImage i st).
Proof.
  intros Hij.
  assert (Ho : originalImages (handleRemoveImage i (handleRemoveImage (S j) st))
               = originalImages (handleRemoveImage j (handleRemoveImage i st))).
  { apply list_eq. intros x. rewrite !lookup_handleRemoveImage_original.
    f_equal. repeat case_decide; lia. }
  assert (Hg : generatedImages (handleRemoveImage i (handleRemoveImage (S j) st))
               = generatedImages (handleRemoveImage j (handleRemoveImage i st))).
  { apply map_eq. intros x. rewrite !lookup_handleRemoveImage_generated.
    f_equal. repeat case_decide; lia. }
  assert (Hs : selectedResultIndex (handleRemoveImage i (handleRemoveImage (S j) st))
               = selectedResultIndex (handleRemoveImage j (handleRemoveImage i st))).
  { apply (removeSelection_commute i j _ Hij). }
  apply State_eq; try reflexivity; [exact Ho|exact Hg|exact Hs].
Qed.

Lemma handleRemoveImage_commute_witness :
  0 ≤ 1
  ∧ handleRemoveImage 0 (handleRemoveImage 2 gallery)
    = handleRemoveImage 1 (handleRemoveImage 0 gallery)
  ∧ originalImages (handleRemoveImage 0 (handleRemoveImage 2 gallery)) = [js "room-b"].
Proof.
  assert (H01 : 0 ≤ 1) by lia.
  split; [exact H01|]. split; [exact (handleRemoveImage_commute 0 1 gallery H01)|].
  vm_compute. reflexivity.
Defined.

(** ** Consistency is kept by every handler *)

Lemma consistent_handleRemoveImage (k : nat) (st : State) :
  consistent st → consistent (handleRemoveImage k st).
Proof.
  intros [Ha Hs Hc Hi Hp Hl Hst Hpa Hat]. split; try done.
  - intros x. rewrite lookup_handleRemoveImage_generated.
    intros Hx%Ha. apply lookup_lt_is_Some.
    rewrite lookup_handleRemoveImage_original. by apply lookup_lt_is_Some.
  - intros s' Hs'. rewrite lookup_handleRemoveImage_generated.
    apply Hs. by apply removeSelection_Some.
Qed.

Lemma consistent_reset (st : State) (images : list jsstring) :
  consistent st →
  consistent (resetGenerationState (setOriginalImages (fun _ => images) st)).
Proof.
  intros [Ha Hs Hc Hi Hp Hl Hst Hpa Hat]. split; try done.
  intros i [? Hi']. simpl in Hi'. by rewrite lookup_empty in Hi'.
Qed.

Lemma consistent_processFiles (files : option (list File)) (st : State) :
  consistent st → consistent (processFiles files st).
Proof.
  intros Hc. unfold processFiles.
  destruct files as [files|]; [|done].
  destruct (0 <? length files); [|done].
  destruct (length _ =? 0); [done|].
  destruct (Promise_all _); [by apply consistent_reset|].
  by destruct Hc.
Qed.

Lemma selectable_toggle (label : jsstring) (current : option jsstring) :
  label ≠ [] → selectable (toggle label current).
Proof.
  intros Hl. unfold toggle, selectable.
  destruct current as [c|]; [case_bool_decide|]; congruence.
Qed.

Lemma consistent_loadPreferences (localStorage : option StoredItem) (st : State) :
  consistent st → consistent (loadPreferences localStorage st).
Proof.
  intros [Ha Hs Hc Hi Hp Hl Hst Hpa Hat].
  destruct localStorage as [[|[sty pal atm qual]]|]; [by split..| |by split].
  unfold loadPreferences, selectable in *. simpl.
  destruct sty as [[|? ?]|], pal as [[|? ?]|], atm as [[|? ?]|], qual; simpl;
    by split.
Qed.

Lemma consistent_initialState : consistent initialState.
Proof. split; try done. intros i [? Hi]. simpl in Hi. by rewrite lookup_empty in Hi. Qed.

Lemma consistent_handleGenerateClick (service : nat → call → option jsstring) (st : State) :
  consistent st → consistent (ui (handleGenerateClick service (start st)).1).
Proof.
  intros Hc.
  destruct (selectedStyle st) as [style|] eqn:Hs.
  2:{ rewrite handleGenerateClick_no_style; [done|]. by rewrite Hs. }
  destruct (truthy style) eqn:Ht.
  2:{ rewrite handleGenerateClick_no_style; [done|]. by rewrite Hs. }
  destruct (originalImages st) as [|x l] eqn:Ho.
  { by rewrite handleGenerateClick_no_upload. }
  assert (Hn : 0 < length (originalImages st)) by (rewrite Ho; simpl; lia).
  destruct Hc as [Ha Hsel Hc Hi Hp Hl Hst Hpa Hat].
  assert (Hgen : ∀ ref rs i,
    S (length rs) ≤ length (originalImages st) →
    is_Some (generatedImages
               (ui (rounds (originalImages st) ref (selectedQuality st)
                      (first_round st style ref) 1 rs)) !! i) →
    i < length (originalImages st)).
  { intros ref rs i Hlen. rewrite first_rounds_generated, lookup_lt_is_Some. simpl. lia. }
  destruct (handleGenerateClick_runs service st style Hs Ht Hn)
    as [Hw|(ref & rs & [[Hw Htot]|[Hw Hlen]])]; rewrite Hw; clear Hw.
  - split; try done. intros i [? Hi']. simpl in Hi'. by rewrite lookup_empty in Hi'.
  - split; unfold aligned, selectionValid;
      cbn -[js rounds]; frame_rounds; cbn -[js rounds]; try done.
    intros i. apply Hgen. lia.
  - split; unfold aligned, selectionValid;
      cbn -[js rounds]; frame_rounds; cbn -[js rounds]; try done.
    intros i. apply Hgen. lia.
Qed.

(** ** The chat, whatever the service does *)

Lemma consistent_handleSendMessage (service : nat → call → option jsstring)
    (now later : nat) (message : jsstring) (isShoppingQuery : bool) (st : State) :
  consistent st →
  consistent (ui (handleSendMessage service now later message isShoppingQuery (start st)).1).
Proof.
  intros Hc.
  destruct (selectedResultIndex st) as [s|] eqn:Hsel.
  2:{ by rewrite handleSendMessage_unselected. }
  rewrite (handleSendMessage_selected service now later message isShoppingQuery st s Hsel).
  destruct Hc as [Ha Hs Hc Hi Hp Hl Hst Hpa Hat].
  assert (Hkeys : ∀ i,
    is_Some (generatedImages
               (ui (sent st s now later message
                      (chatCall st s message isShoppingQuery)
                      (service 0 (chatCall st s message isShoppingQuery)))) !! i) →
    is_Some (generatedImages st !! i)).
  { intros i. cbn -[replyText].
    destruct (service 0 _) as [r|]; [destruct (isRefinement _)|]; simpl; try done.
    destruct (decide (i = s)) as [->|Hne]; [intros _; by apply Hs|].
    by rewrite lookup_insert_ne. }
  split; try done.
  - intros i Hi'%Hkeys. by apply Ha.
  - intros s' Hs'. cbn -[replyText]. cbn -[replyText] in Hs'.
    specialize (Hs s' Hs').
    destruct (service 0 _) as [r|]; [destruct (isRefinement _)|]; simpl; try done.
    destruct (decide (s' = s)) as [->|Hne]; [by rewrite lookup_insert_eq|].
    by rewrite lookup_insert_ne.
  - cbn -[replyText]. rewrite <- app_assoc. by apply exchanges_app.
Qed.

(** X5.  A send operation in general mode, or in design mode when the
    selected index holds no generated image (none, or the empty string),
    issues the conversational call on the message alone, also for a
    shopping query, and leaves the generated images as they are. *)
Theorem handleSendMessage_conversation (service : nat → call → option jsstring)
    (now later : nat) (message : jsstring) (isShoppingQuery : bool) (st : State) (s : nat) :
  selectedResultIndex st = Some s →
  chatMode st = general ∨ truthy_opt (generatedImages st !! s) = false →
  let w := (handleSendMessage service now later message isShoppingQuery (start st)).1 in
  let reply := replyText (getChatResponse message) (service 0 (getChatResponse message)) in
  log w = [Append {| id_ := now; role := user; text := message |};
           Issue (getChatResponse message);
           Append {| id_ := later + 1; role := model; text := reply |}]
  ∧ generatedImages (ui w) = generatedImages st.
Proof.
  intros Hsel Hmode w reply. subst w reply.
  rewrite (handleSendMessage_selected service now later message isShoppingQuery st s Hsel).
  assert (Hcall : chatCall st s message isShoppingQuery = getChatResponse message).
  { unfold chatCall. destruct Hmode as [->|Hb]; [done|].
    destruct (chatMode st); [|done].
    destruct (generatedImages st !! s) as [b|]; [|done].
    simpl in Hb. by rewrite Hb. }
  rewrite Hcall. cbn -[replyText].
  destruct (service 0 (getChatResponse message)); split; reflexivity.
Qed.

Lemma handleSendMessage_conversation_witness :
  let st := setChatMode general gallery in
  let w := (handleSendMessage resolving 100 200 (js "buy a rug") true (start st)).1 in
  (selectedResultIndex st = Some 2
   ∧ (chatMode st = general ∨ truthy_opt (generatedImages st !! 2) = false))
  ∧ log w = [Append {| id_ := 100; role := user; text := js "buy a rug" |};
             Issue (getChatResponse (js "buy a rug"));
             Append {| id_ := 201; role := model; text := js "styled-" ++ [0%N] |}]
  ∧ generatedImages (ui w) = generatedImages st.
Proof.
  intros st w.
  assert (Hsel : selectedResultIndex st = Some 2) by reflexivity.
  assert (Hmode : chatMode st = general ∨ truthy_opt (generatedImages st !! 2) = false)
    by (left; reflexivity).
  split; [by split|].
  exact (handleSendMessage_conversation resolving 100 200 (js "buy a rug") true st 2
           Hsel Hmode).
Defined.

(** X6.  Whatever the service does, a send operation issues at most one
    call, leaves the uploads, the selections, the selected index, the run
    state, the progress and the chat mode as they were, and changes no
    generated image other than the selected one.  When its call rejects,
    no generated image changes at all.  With an index selected it ends
    with the loading flag off and the error cleared. *)
Theorem handleSendMessage_frame (service : nat → call → option jsstring)
    (now later : nat) (message : jsstring) (isShoppingQuery : bool) (st : State) :
  let w := (handleSendMessage service now later message isShoppingQuery (start st)).1 in
  issued w ≤ 1
  ∧ inputs (ui w) = inputs st
  ∧ selectedResultIndex (ui w) = selectedResultIndex st
  ∧ appState (ui w) = appState st
  ∧ generationProgress (ui w) = generationProgress st
  ∧ chatMode (ui w) = chatMode st
  ∧ (∀ j, selectedResultIndex st ≠ Some j →
       generatedImages (ui w) !! j = generatedImages st !! j)
  ∧ (∀ s, selectedResultIndex st = Some s →
       service 0 (chatCall st s message isShoppingQuery) = None →
       generatedImages (ui w) = generatedImages st)
  ∧ (∀ s, selectedResultIndex st = Some s →
       isChatLoading (ui w) = false ∧ error (ui w) = None).
Proof.
  intros w. subst w.
  destruct (selectedResultIndex st) as [s|] eqn:Hsel.
  2:{ rewrite handleSendMessage_unselected by done. cbn.
      split; [lia|]. by repeat split. }
  rewrite (handleSendMessage_selected service now later message isShoppingQuery st s Hsel).
  cbn -[replyText].
  split; [lia|]. split; [reflexivity|]. split; [by rewrite Hsel|].
  split; [reflexivity|]. split; [reflexivity|]. split; [reflexivity|].
  split; [|split].
  - intros j Hj.
    destruct (service 0 _) as [r|]; [destruct (isRefinement _)|]; simpl; try done.
    apply lookup_insert_ne. congruence.
  - intros s' [= <-] ->. reflexivity.
  - intros s' _. by split.
Qed.

(** ** Submitting an input *)

Lemma existsb_trimStart (s : jsstring) :
  existsb (fun c => negb (isWhiteSpace c)) (trimStart s)
  = existsb (fun c => negb (isWhiteSpace c)) s.
Proof.
  induction s as [|c s IH]; simpl; [done|].
  destruct (isWhiteSpace c) eqn:Hc; simpl; [exact IH|by rewrite Hc].
Qed.

Lemma truthy_trimStart (s : jsstring) :
  truthy (trimStart s) = existsb (fun c => negb (isWhiteSpace c)) s.
Proof.
  induction s as [|c s IH]; simpl; [done|].
  destruct (isWhiteSpace c) eqn:Hc; simpl; [exact IH|done].
Qed.

Lemma existsb_rev' {A} (p : A → bool) (l : list A) : existsb p (rev l) = existsb p l.
Proof.
  induction l as [|x l IH]; simpl; [done|].
  rewrite existsb_app, IH. simpl. rewrite orb_false_r. apply orb_comm.
Qed.

Lemma truthy_rev (s : jsstring) : truthy (rev s) = truthy s.
Proof. destruct s as [|c s]; simpl; [done|]. by destruct (rev s). Qed.

(** [trim] leaves something exactly when the text has a code unit that is
    not white space. *)
Lemma truthy_trim (s : jsstring) :
  truthy (trim s) = existsb (fun c => negb (isWhiteSpace c)) s.
Proof.
  unfold trim.
  by rewrite truthy_rev, truthy_trimStart, existsb_rev', existsb_trimStart.
Qed.

(** X7.  The form sends an input exactly when no reply is pending and the
    input has a code unit that is not white space; a blank input, or any
    input while a reply is pending, does nothing.  What is sent is the
    input as typed, not trimmed.  Outside design mode no input is a
    shopping query, whatever words it holds. *)
Theorem handleSubmit_sends (toLowerCase : jsstring → jsstring)
    (onSendMessage : jsstring → bool → Async unit)
    (isLoading isDesignMode : bool) (input : jsstring) :
  handleSubmit toLowerCase onSendMessage isLoading isDesignMode input
  = (if negb isLoading && existsb (fun c => negb (isWhiteSpace c)) input
     then onSendMessage input (isShoppingQuery toLowerCase isDesignMode input)
     else ret tt)
  ∧ isShoppingQuery toLowerCase false input = false.
Proof.
  split; [|reflexivity].
  unfold handleSubmit. rewrite truthy_trim.
  by destruct isLoading, (existsb _ input).
Qed.

(** ** Every reachable state is consistent *)

Lemma consistent_submit (toLowerCase : jsstring → jsstring)
    (service : nat → call → option jsstring) (now later : nat) (input : jsstring)
    (st : State) :
  consistent st →
  consistent (ui (submit toLowerCase service now later input (start st)).1).
Proof.
  intros Hc. unfold submit, handleSubmit. cbn [ui start].
  destruct (truthy (trim input) && negb (isChatLoading st)); [|done].
  by apply consistent_handleSendMessage.
Qed.

Lemma labels_nonempty (label : jsstring) :
  In label DESIGN_STYLES ∨ In label COLOR_PALETTES ∨ In label ATMOSPHERES → label ≠ [].
Proof.
  unfold DESIGN_STYLES, COLOR_PALETTES, ATMOSPHERES. simpl.
  intros H Hnil. subst label.
  repeat match goal with
  | H : _ ∨ _ |- _ => destruct H as [H|H]
  | H : js _ = [] |- _ => vm_compute in H; discriminate H
  | H : False |- _ => destruct H
  end.
Qed.

(** X4.  Handlers run one after the other from the mounted component keep
    the state consistent: every generated image belongs to an upload, the
    selected result is a generated image, the transcript is made of
    user/model exchanges, no run is in progress and no reply is pending,
    and a selected style, palette or atmosphere is never the empty
    string. *)
Theorem reachable_consistent (toLowerCase : jsstring → jsstring) (st : State) :
  reachable toLowerCase st → consistent st.
Proof.
  induction 1 as [localStorage
                 |files st _ IH
                 |index st _ IH
                 |style st _ IH Hin
                 |palette st _ IH Hin
                 |atmosphere st _ IH Hin
                 |quality st _ IH Hin
                 |st _ IH
                 |st _ IH
                 |service st _ IH
                 |index generated st _ IH Hready Hidx Hgen Htruthy
                 |mode st _ IH
                 |service now later input st _ IH].
  - apply consistent_loadPreferences, consistent_initialState.
  - by apply consistent_processFiles.
  - by apply consistent_handleRemoveImage.
  - destruct IH. split; try done.
    apply selectable_toggle, labels_nonempty. by left.
  - destruct IH. split; try done.
    apply selectable_toggle, labels_nonempty. right. by left.
  - destruct IH. split; try done.
    apply selectable_toggle, labels_nonempty. right. by right.
  - by destruct IH.
  - by destruct IH.
  - by destruct IH.
  - by apply consistent_handleGenerateClick.
  - destruct IH as [Ha Hs Hc Hi Hp Hl Hst Hpa Hat]. split; try done.
    intros s [= <-]. simpl. by rewrite Hgen.
  - by destruct IH.
  - by apply consistent_submit.
Qed.

Lemma reachable_consistent_witness :
  reachable toLowerCaseASCII (handleRemoveImage 1 gallery)
  ∧ consistent (handleRemoveImage 1 gallery).
Proof.
  assert (Hreach : reachable toLowerCaseASCII (handleRemoveImage 1 gallery)).
  { apply reach_remove.
    assert (Hgallery : gallery
      = setSelectedResultIndex (Some 2)
          (ui (handleGenerateClick
                 (fun n _ => Some (nth n [js "design-a"; js "design-b"; js "design-c"] []))
                 (start threeUploads)).1)).
    { vm_compute. reflexivity. }
    rewrite Hgallery.
    apply (reach_select toLowerCaseASCII 2 (js "design-c")); try (vm_compute; reflexivity).
    apply reach_generate.
    assert (Hup : threeUploads
        = handleSelectStyle (js "Industrial")
            (processFiles
               (Some [ {| type := js "image/png"; readAsDataURL := Some (js "room-a") |};
                       {| type := js "image/png"; readAsDataURL := Some (js "room-b") |};
                       {| type := js "image/png"; readAsDataURL := Some (js "room-c") |} ])
               (loadPreferences None initialState))).
    { vm_compute. reflexivity. }
    rewrite Hup. apply reach_style; [|vm_compute; tauto].
    apply reach_files, reach_mount. }
  split; [exact Hreach|].
  exact (reachable_consistent toLowerCaseASCII _ Hreach).
Defined.

(** ** The message parser, again *)

(** The two ways the loop goes on, by what [exec] returns. *)
Lemma scan_match (text : jsstring) (from : nat) (parts : list part) (m : Match) :
  exec shoppingLinkRegex text from = Some m →
  scan text from parts
  = scan text (lastIndex m)
      (parts
       ++ (if from <? index m then [Str (substring text from (Some (index m)))] else [])
       ++ [shoppingItem m]).
Proof.
  funelim (scan text from parts); intros Hm; [|congruence].
  assert (m0 = m) as -> by congruence. reflexivity.
Qed.

Lemma scan_ind (P : nat → list part → Prop) (text : jsstring) :
  (∀ from, exec shoppingLinkRegex text from = None →
     P from (if from <? length text then [Str (substring text from None)] else [])) →
  (∀ from m, exec shoppingLinkRegex text from = Some m →
     P (lastIndex m) (scan text (lastIndex m) []) →
     P from ((if from <? index m then [Str (substring text from (Some (index m)))] else [])
             ++ shoppingItem m :: scan text (lastIndex m) [])) →
  (∀ from, P from (scan text from [])) ∧
  (∀ from parts, scan text from parts = parts ++ scan text from []).
Proof.
  intros Hnone Hsome.
  assert (Hboth : ∀ n from, length text - from < n →
    P from (scan text from [])
    ∧ ∀ parts, scan text from parts = parts ++ scan text from []).
  { induction n as [|n IH]; intros from Hn; [lia|].
    destruct (exec shoppingLinkRegex text from) as [m|] eqn:E.
    - pose proof (exec_bounds _ _ _ E) as (Hfrom & Hidx & Hlast).
      destruct (IH (lastIndex m) ltac:(lia)) as [IHP IHapp].
      assert (Happ : ∀ parts, scan text from parts = parts ++ scan text from []).
      { intros parts. rewrite !(scan_match _ _ _ _ E).
        rewrite (IHapp (parts ++ _)), (IHapp ([] ++ _)). simpl.
        by rewrite <- !app_assoc. }
      split; [|exact Happ].
      rewrite (scan_match _ _ _ _ E), IHapp. simpl. rewrite <- app_assoc. simpl.
      by apply Hsome.
    - split.
      + rewrite scan_no_match by done. simpl. by apply Hnone.
      + intros parts. by rewrite !scan_no_match. }
  split.
  - intros from. apply (Hboth (S (length text - from))). lia.
  - intros from. apply (Hboth (S (length text - from))). lia.
Qed.

Lemma scan_app (text : jsstring) (from : nat) (parts : list part) :
  scan text from parts = parts ++ scan text from [].
Proof. apply (scan_ind (fun _ _ => True)); done. Qed.

(** What a match captures. *)
Lemma search_groups (s : jsstring) (i : nat) (m : Match) :
  search shoppingLinkRegex s i = Some m → Forall oneLine (groups m).
Proof.
  revert i. induction s as [|c s IH]; intros i; cbn [search];
    (destruct (matchHere shoppingLinkRegex _) as [[gs n]|] eqn:E;
     [intros [= <-]; by apply matchHere_sound in E as (_ & _ & _ & Hg)|]).
  - done.
  - apply IH.
Qed.

Lemma dotsMatch_end (rest : jsstring → option (list jsstring * nat))
    (s : jsstring) gs n :
  (∀ s' gs' n', rest s' = Some (gs', n') →
     ∀ c, s' !! n' = Some c → isLineTerminator c = true) →
  dotsMatch rest [] s gs n →
  ∀ c, s !! n = Some c → isLineTerminator c = true.
Proof.
  intros Hrest (g & gs' & n' & _ & -> & _ & _ & Hr) c Hc.
  apply (Hrest _ _ _ Hr c). rewrite lookup_drop. exact Hc.
Qed.

(** The greedy group stops at a line terminator or at the end. *)
Lemma greedyDots_end (taken s : jsstring) gs n :
  greedyDots (matchHere []) taken s = Some (gs, n) →
  ∀ c, s !! (n - length taken) = Some c → isLineTerminator c = true.
Proof.
  revert taken. induction s as [|c s IH]; intros taken; cbn [greedyDots matchHere].
  - intros _ c. by rewrite lookup_nil.
  - destruct (isLineTerminator c) eqn:Hc.
    + intros [= <- <-] c'. replace (length taken + 0 - length taken) with 0 by lia.
      simpl. congruence.
    + destruct (greedyDots _ (taken ++ [c]) s) as [r|] eqn:E.
      * intros [= ->] c'. pose proof (IH _ E c') as Hc'. rewrite length_app in Hc'.
        simpl in Hc'.
        assert (length taken + 1 ≤ n).
        { apply greedyDots_inv in E as (? & ? & ? & _ & -> & _).
          rewrite length_app. simpl. lia. }
        replace (n - length taken) with (S (n - (length taken + 1))) by lia.
        exact Hc'.
      * exfalso. clear -E. revert taken E.
        induction s as [|d s IHs]; intros taken; cbn [greedyDots matchHere]; [done|].
        destruct (isLineTerminator d); [done|].
        destruct (greedyDots _ ((taken ++ [c]) ++ [d]) s); done.
Qed.

Lemma matchHere_end (pattern : list token) (s : jsstring) gs n :
  endsGreedy pattern = true →
  matchHere pattern s = Some (gs, n) →
  ∀ c, s !! n = Some c → isLineTerminator c = true.
Proof.
  revert s gs n. induction pattern as [|t pattern IH]; intros s gs n Hend; [done|].
  destruct pattern as [|t' pattern'].
  - destruct t; try done. cbn [matchHere]. intros H c.
    pose proof (greedyDots_end [] s gs n H c) as Hc. simpl in Hc.
    by rewrite Nat.sub_0_r in Hc.
  - assert (Hend' : endsGreedy (t' :: pattern') = true) by (by destruct t).
    assert (Hshift : ∀ g s' n',
      (∀ c, drop g s' !! n' = Some c → isLineTerminator c = true) →
      ∀ c, s' !! (g + n') = Some c → isLineTerminator c = true).
    { intros g s' n' H c Hc. apply H. by rewrite lookup_drop. }
    remember (t' :: pattern') as pattern eqn:Hpattern. clear Hpattern Hend.
    destruct t as [l| |]; cbn [matchHere].
    + destruct (startsWith s l); [|done].
      destruct (matchHere pattern (drop (length l) s)) as [[gs' n']|] eqn:E;
        [|done].
      intros [= <- <-]. apply Hshift. by apply (IH _ _ _ Hend' E).
    + intros H%lazyDots_inv.
      apply (dotsMatch_end _ _ _ _ (fun s' gs' n' => IH s' gs' n' Hend') H).
    + intros H%greedyDots_inv.
      apply (dotsMatch_end _ _ _ _ (fun s' gs' n' => IH s' gs' n' Hend') H).
Qed.

Lemma search_end (s : jsstring) (i : nat) (m : Match) :
  search shoppingLinkRegex s i = Some m →
  ∀ c, s !! (lastIndex m - i) = Some c → isLineTerminator c = true.
Proof.
  revert i. induction s as [|c s IH]; intros i; cbn [search];
    (destruct (matchHere shoppingLinkRegex _) as [[gs n]|] eqn:E;
     [intros [= <-] c'; cbn [lastIndex]; replace (i + n - i) with n by lia;
      by apply (matchHere_end shoppingLinkRegex _ gs n)|]).
  - done.
  - intros H c'. pose proof (search_bounds _ _ _ H) as (? & ? & ?).
    pose proof (IH _ H c') as Hc'.
    replace (lastIndex m - i) with (S (lastIndex m - S i)) by lia. exact Hc'.
Qed.

(** X11.  A match of the shopping-link pattern never crosses a line: the
    name, the url and the description it captures hold no line terminator,
    and the description runs to the end of its line (the match is followed
    by a line terminator or by the end of the text). *)
Theorem exec_within_line (text : jsstring) (from : nat) (m : Match) :
  exec shoppingLinkRegex text from = Some m →
  (∃ name url description,
     shoppingItem m = ShoppingItem name url description
     ∧ oneLine name ∧ oneLine url ∧ oneLine description)
  ∧ (∀ c, text !! lastIndex m = Some c → isLineTerminator c = true).
Proof.
  intros E. pose proof (exec_bounds _ _ _ E) as (Hfrom & Hidx & Hlast).
  unfold exec in E. destruct (Nat.leb_spec from (length text)) as [Hle|?]; [|done].
  split.
  - pose proof (search_groups _ _ _ E) as Hg.
    apply search_sound in E as (k & name & url & d & _ & _ & Hgs & _).
    exists name, url, d. unfold shoppingItem. rewrite Hgs in *. simpl.
    split; [done|].
    apply Forall_cons_1 in Hg as [Hn [Hu [Hd _]%Forall_cons_1]%Forall_cons_1]. done.
  - intros c Hc. apply (search_end _ _ _ E c).
    rewrite lookup_drop. by replace (from + (lastIndex m - from)) with (lastIndex m) by lia.
Qed.

Lemma exec_within_line_witness :
  let text := js "See:
- **[Lamp](http://l)** - Brass floor lamp
Enjoy" in
  let m := {| index := 5;
              groups := [js "Lamp"; js "http://l"; js "Brass floor lamp"];
              lastIndex := 46 |} in
  exec shoppingLinkRegex text 0 = Some m
  ∧ text !! 46 = Some 10%N
  ∧ isLineTerminator 10 = true.
Proof.
  intros text m.
  assert (E : exec shoppingLinkRegex text 0 = Some m) by (vm_compute; reflexivity).
  assert (Hc : text !! 46 = Some 10%N) by (vm_compute; reflexivity).
  split; [exact E|]. split; [exact Hc|].
  destruct (exec_within_line text 0 m E) as [_ Hend].
  exact (Hend 10%N Hc).
Defined.

(** X9.  The parts the loop collects are never an empty string, and two
    strings are never neighbours: a literal run is pushed only when it has
    at least one code unit, and it always ends at a shopping item or at the
    end of the text. *)
Theorem scan_wellSeparated (text : jsstring) (from : nat) :
  wellSeparated (scan text from []).
Proof.
  apply (scan_ind (fun _ parts => wellSeparated parts) text).
  - intros from' _. destruct (Nat.ltb_spec from' (length text)) as [Hlt|Hge]; [|done].
    simpl. split; [|done]. intros Hnil.
    apply (f_equal length) in Hnil. rewrite length_drop in Hnil. simpl in Hnil. lia.
  - intros from' m E IH.
    pose proof (exec_bounds _ _ _ E) as (Hfrom & Hidx & Hlast).
    destruct (Nat.ltb_spec from' (index m)) as [Hlt|Hge]; [|exact IH].
    simpl. split; [|split; [done|exact IH]]. intros Hnil.
    apply (f_equal length) in Hnil. rewrite length_take, length_drop in Hnil.
    simpl in Hnil. lia.
Qed.

Lemma exec_includes (text : jsstring) (from : nat) (m : Match) :
  exec shoppingLinkRegex text from = Some m → includes text (js "- **[") = true.
Proof.
  unfold exec. destruct (Nat.leb_spec from (length text)) as [Hle|?]; [|done].
  intros (k & name & url & d & _ & _ & _ & Ht)%search_sound.
  apply includes_spec.
  exists (take (from + k) text),
         (name ++ js "](" ++ url ++ js ")** - " ++ d
          ++ drop (lastIndex m - index m) (drop (from + k) text)).
  rewrite drop_drop in Ht.
  rewrite <- (take_drop (from + k) text) at 1. f_equal.
  rewrite <- (take_drop (lastIndex m - index m) (drop (from + k) text)) at 1.
  rewrite Ht. unfold itemText. by rewrite <- !app_assoc.
Qed.

(** X10.  Shopping items come from matches, and from the messages of the
    model only: a message is rendered with an item exactly when its author
    is the model and the pattern matches somewhere in its text.  Then what
    is rendered starts with the text before the leftmost match, if there
    is any, and the item of that match. *)
Theorem ParsedMessage_items (message : ChatMessage) :
  ((∃ name url description, Item name url description ∈ ParsedMessage message)
   ↔ role message = model ∧ is_Some (exec shoppingLinkRegex (text message) 0))
  ∧ (∀ m, role message = model →
       exec shoppingLinkRegex (text message) 0 = Some m →
       ParsedMessage message
       = map render
           ((if 0 <? index m then [Str (take (index m) (text message))] else [])
            ++ shoppingItem m :: scan (text message) (lastIndex m) [])).
Proof.
  assert (Hfirst : ∀ m, role message = model →
    exec shoppingLinkRegex (text message) 0 = Some m →
    ParsedMessage message
    = map render
        ((if 0 <? index m then [Str (take (index m) (text message))] else [])
         ++ shoppingItem m :: scan (text message) (lastIndex m) [])).
  { intros m Hr E. unfold ParsedMessage. rewrite Hr, (exec_includes _ _ _ E). simpl.
    rewrite (scan_match _ _ _ _ E), scan_app. simpl.
    unfold substring. rewrite drop_0, Nat.sub_0_r. by rewrite <- app_assoc. }
  split; [|exact Hfirst]. split.
  - intros (name & url & d & Hin).
    destruct (role message) eqn:Hr.
    { unfold ParsedMessage in Hin. rewrite Hr in Hin. simpl in Hin.
      apply list_elem_of_singleton in Hin. discriminate. }
    split; [done|].
    destruct (exec shoppingLinkRegex (text message) 0) as [m|] eqn:E; [done|].
    exfalso. unfold ParsedMessage in Hin. rewrite Hr in Hin. simpl in Hin.
    destruct (includes (text message) (js "- **[")); simpl in Hin.
    + rewrite scan_no_match in Hin by done. simpl in Hin.
      destruct (0 <? length (text message)); simpl in Hin.
      * apply list_elem_of_singleton in Hin. discriminate.
      * by apply elem_of_nil in Hin.
    + apply list_elem_of_singleton in Hin. discriminate.
  - intros [Hr [m E]]. rewrite (Hfirst m Hr E).
    destruct (exec_sound _ _ _ E) as (name & url & d & Hitem & _).
    exists name, url, d. rewrite map_app, Hitem. simpl.
    apply elem_of_app. right. apply elem_of_cons. by left.
Qed.

(** ** The mood board *)

Lemma js_inj (s1 s2 : string) : js s1 = js s2 → s1 = s2.
Proof.
  unfold js. intros H.
  rewrite <- (string_of_list_ascii_of_string s1), <- (string_of_list_ascii_of_string s2).
  f_equal. revert H.
  generalize (list_ascii_of_string s1) (list_ascii_of_string s2).
  induction l as [|a l IH]; intros [|b l']; simpl; try done.
  intros [= Hab Hl]. f_equal; [|by apply IH].
  rewrite <- (ascii_N_embedding a), <- (ascii_N_embedding b). by rewrite Hab.
Qed.

Lemma js_cons (a : ascii) (s : string) : js (String a s) = N_of_ascii a :: js s.
Proof. reflexivity. Qed.

Lemma to_uint_nonnil (n : nat) : Nat.to_uint n ≠ Decimal.Nil.
Proof.
  rewrite DecimalNat.Unsigned.to_uint_alt. intros H%DecimalFacts.rev_nil_inv.
  destruct n as [|n]; [discriminate|].
  rewrite DecimalNat.Unsigned.to_lu_succ in H.
  by destruct (DecimalNat.Unsigned.to_lu n).
Qed.

Lemma Date_now_toString_inj (a b : nat) :
  Date_now_toString a = Date_now_toString b → a = b.
Proof.
  intros H. apply DecimalNat.Unsigned.to_uint_inj.
  unfold Date_now_toString in H. apply js_inj in H.
  assert (E : Some (Nat.to_uint a) = Some (Nat.to_uint b)).
  { rewrite <- (NilZero.usu (Nat.to_uint a)), <- (NilZero.usu (Nat.to_uint b));
      [by rewrite H|apply to_uint_nonnil..]. }
  by injection E.
Qed.

Lemma idOf_inj (s1 s2 : bool * nat) : idOf s1 = idOf s2 → s1 = s2.
Proof.
  destruct s1 as [[] a], s2 as [[] b]; unfold idOf; cbn [fst snd]; intros H.
  - apply app_inv_head, Date_now_toString_inj in H. by subst.
  - rewrite !js_cons in H. simpl in H. discriminate.
  - rewrite !js_cons in H. simpl in H. discriminate.
  - apply app_inv_head, Date_now_toString_inj in H. by subst.
Qed.

Lemma boardStep_stamp (items : list MoodBoardItem.t) (a : boardAction) :
  match stamp a with
  | Some s => ∃ x, boardStep items a = items ++ [x] ∧ MoodBoardItem.id x = idOf s
  | None =>
      match a with
      | RemoveItem id => boardStep items a = handleRemoveMoodBoardItem id items
      | _ => boardStep items a = items
      end
  end.
Proof.
  destruct a as [style now url|now name url d|id]; simpl.
  - unfold handleSaveDesign, truthy_opt.
    destruct style as [style|]; [|done]. destruct (truthy style); [|done].
    eexists. split; reflexivity.
  - eexists. split; reflexivity.
  - reflexivity.
Qed.

Lemma NoDup_map_filter {A B} (f : A → B) (p : A → bool) (l : list A) :
  NoDup (map f l) → NoDup (map f (List.filter p l)).
Proof.
  induction l as [|x l IH]; simpl; [done|].
  intros [Hx Hl]%NoDup_cons. destruct (p x); simpl; [|by apply IH].
  apply NoDup_cons. split; [|by apply IH].
  intros (y & Hy & [Hin _]%list_elem_of_In%filter_In)%list_elem_of_fmap.
  apply Hx, list_elem_of_fmap. exists y. split; [done|by apply list_elem_of_In].
Qed.

Lemma boardRun_ids (actions : list boardAction) :
  NoDup (stamps actions) →
  NoDup (map MoodBoardItem.id (boardRun actions []))
  ∧ ∀ x, x ∈ boardRun actions [] →
      ∃ s, s ∈ stamps actions ∧ MoodBoardItem.id x = idOf s.
Proof.
  induction actions as [|a actions IH] using rev_ind.
  { intros _. split; [constructor|by intros x ?%elem_of_nil]. }
  unfold stamps, boardRun. rewrite omap_app, fold_left_app. simpl.
  fold (boardRun actions []). fold (stamps actions).
  intros (Hnd & Hdisj & _)%NoDup_app. destruct (IH Hnd) as [Hids Hfrom].
  pose proof (boardStep_stamp (boardRun actions []) a) as Hstep.
  destruct (stamp a) as [s|].
  - destruct Hstep as (x & -> & Hid). split.
    + rewrite map_app. simpl. apply NoDup_app. split; [done|]. split; [|apply NoDup_singleton].
      intros i (y & -> & (s' & Hs' & Hy)%Hfrom)%list_elem_of_fmap Hi%list_elem_of_singleton.
      rewrite Hi, Hid in Hy. apply idOf_inj in Hy as <-.
      apply (Hdisj s Hs'). by apply list_elem_of_singleton.
    + intros y [Hy| ->%list_elem_of_singleton]%elem_of_app.
      * destruct (Hfrom y Hy) as (s' & ? & ?). exists s'. split; [|done].
        apply elem_of_app. by left.
      * exists s. split; [|done]. apply elem_of_app. right. by apply list_elem_of_singleton.
  - assert (Hsub : ∀ y, y ∈ boardStep (boardRun actions []) a → y ∈ boardRun actions []).
    { destruct a; rewrite Hstep; try done.
      intros y [? _]%list_elem_of_In%filter_In. by apply list_elem_of_In. }
    split.
    + destruct a; rewrite Hstep; try done. by apply NoDup_map_filter.
    + intros y Hy%Hsub. destruct (Hfrom y Hy) as (s' & ? & ?). exists s'. split; [|done].
      apply elem_of_app. by left.
Qed.

Lemma handleRemoveMoodBoardItem_unique (l1 l2 : list MoodBoardItem.t) (x : MoodBoardItem.t) :
  NoDup (map MoodBoardItem.id (l1 ++ x :: l2)) →
  handleRemoveMoodBoardItem (MoodBoardItem.id x) (l1 ++ x :: l2) = l1 ++ l2.
Proof.
  rewrite map_app. simpl.
  intros (_ & Hdisj & [Hx _]%NoDup_cons)%NoDup_app.
  assert (Hkeep : ∀ l, MoodBoardItem.id x ∉ map MoodBoardItem.id l →
            handleRemoveMoodBoardItem (MoodBoardItem.id x) l = l).
  { induction l as [|y l IH]; simpl; [done|].
    intros [Hy Hl]%not_elem_of_cons. rewrite bool_decide_false by done. simpl.
    f_equal. by apply IH. }
  unfold handleRemoveMoodBoardItem in *. rewrite List.filter_app. simpl.
  rewrite bool_decide_true by done. simpl. rewrite (Hkeep l2) by done.
  f_equal. apply Hkeep. intros Hin. apply (Hdisj _ Hin). by left.
Qed.

(** X12.  The cards of the mood board keep distinct ids as long as no two
    saves of the same kind read the same millisecond: after any sequence
    of saves and removals from the empty board no id occurs twice, so
    removing a card removes that card only and keeps the others in their
    order.  (A design and a shopping item saved in the same millisecond
    get different ids.) *)
Theorem moodBoard_cards (actions : list boardAction) :
  NoDup (stamps actions) →
  let moodBoardItems := boardRun actions [] in
  NoDup (map MoodBoardItem.id moodBoardItems)
  ∧ ∀ before card after,
      moodBoardItems = before ++ card :: after →
      handleRemoveMoodBoardItem (MoodBoardItem.id card) moodBoardItems = before ++ after.
Proof.
  intros [Hids _]%boardRun_ids. simpl. split; [exact Hids|].
  intros before card after E. rewrite E in Hids |- *.
  by apply handleRemoveMoodBoardItem_unique.
Qed.

Lemma moodBoard_cards_witness :
  let actions :=
    [SaveDesign (Some (js "Industrial")) 1700 (js "design-a");
     SaveShoppingItem 1700 (js "Lamp") (js "http://l") (js "Brass floor lamp");
     SaveDesign None 1700 (js "design-b");
     RemoveItem (js "item-1700");
     SaveShoppingItem 1701 (js "Rug") (js "http://r") (js "Wool rug")] in
  NoDup (stamps actions)
  ∧ NoDup (map MoodBoardItem.id (boardRun actions [])).
Proof.
  intros actions.
  assert (Hnd : NoDup (stamps actions)).
  { apply (bool_decide_unpack _). vm_compute. reflexivity. }
  split; [exact Hnd|].
  exact (proj1 (moodBoard_cards actions Hnd)).
Defined.

(** ** Uploads *)

Lemma Promise_all_readable (files : list File) :
  readable files →
  ∃ newImages,
    Promise_all (map readAsDataURL (List.filter isImageFile files)) = Some newImages
    ∧ length newImages = length (List.filter isImageFile files).
Proof.
  induction files as [|file files IH]; intros Hr; simpl; [by exists []|].
  destruct IH as (newImages & E & Hlen).
  { intros f Hf. apply Hr. by right. }
  destruct (isImageFile file) eqn:Himg; [|by exists newImages].
  destruct (Hr file) as [url Hurl]; [by left|done|].
  exists (url :: newImages). simpl. rewrite Hurl, E. split; [done|]. by rewrite Hlen.
Qed.

Lemma processFiles_readable (files : list File) (newImages : list jsstring) (st : State) :
  Promise_all (map readAsDataURL (List.filter isImageFile files)) = Some newImages →
  length newImages = length (List.filter isImageFile files) →
  processFiles (Some files) st
  = match newImages with
    | [] => st
    | _ => resetGenerationState
             (setOriginalImages (fun _ => originalImages st ++ newImages) st)
    end.
Proof.
  intros E Hlen. unfold processFiles. fold isImageFile. rewrite E.
  destruct (Nat.ltb_spec 0 (length files)) as [Hpos|Hzero].
  - rewrite <- Hlen. destruct newImages; reflexivity.
  - destruct files; [|simpl in Hzero; lia]. simpl in Hlen. by destruct newImages.
Qed.

(** X13.  Uploads accumulate: when the image files of two batches can all
    be read, adding the batches one after the other leaves the state that
    adding them as one batch leaves, whatever else the batches hold. *)
Theorem processFiles_app (files1 files2 : list File) (st : State) :
  readable (files1 ++ files2) →
  processFiles (Some files2) (processFiles (Some files1) st)
  = processFiles (Some (files1 ++ files2)) st.
Proof.
  intros Hr.
  destruct (Promise_all_readable files1) as (new1 & E1 & Hlen1).
  { intros f Hf. apply Hr, elem_of_app. by left. }
  destruct (Promise_all_readable files2) as (new2 & E2 & Hlen2).
  { intros f Hf. apply Hr, elem_of_app. by right. }
  assert (E : Promise_all (map readAsDataURL (List.filter isImageFile (files1 ++ files2)))
              = Some (new1 ++ new2)).
  { destruct (Promise_all_readable _ Hr) as (new & E & _). rewrite E. f_equal.
    rewrite List.filter_app, map_app in E.
    clear -E E1 E2. revert new new1 E E1.
    induction (map readAsDataURL (List.filter isImageFile files1)) as [|p ps IH];
      simpl; intros new new1 E E1.
    - injection E1 as <-. simpl. congruence.
    - destruct p as [x|]; [|done].
      destruct (Promise_all ps) as [xs|] eqn:Eps; [|done].
      destruct (Promise_all (ps ++ map readAsDataURL (List.filter isImageFile files2)))
        as [ys|] eqn:Eys; [|done].
      injection E as <-. injection E1 as <-. simpl. f_equal. by apply IH. }
  rewrite (processFiles_readable files1 new1 st E1 Hlen1).
  rewrite (processFiles_readable (files1 ++ files2) (new1 ++ new2) st E).
  2:{ rewrite List.filter_app, !length_app. congruence. }
  destruct new1 as [|x1 new1].
  { simpl. by apply processFiles_readable. }
  rewrite (processFiles_readable files2 new2 _ E2 Hlen2).
  destruct new2 as [|x2 new2].
  { by rewrite app_nil_r. }
  apply State_eq; try reflexivity. simpl. by rewrite <- app_assoc.
Qed.

Lemma processFiles_app_witness :
  let png := {| type := js "image/png"; readAsDataURL := Some (js "data:a") |} in
  let txt := {| type := js "text/plain"; readAsDataURL := None |} in
  let jpeg := {| type := js "image/jpeg"; readAsDataURL := Some (js "data:b") |} in
  readable ([png; txt] ++ [jpeg])
  ∧ processFiles (Some [jpeg]) (processFiles (Some [png; txt]) gallery)
    = processFiles (Some ([png; txt] ++ [jpeg])) gallery.
Proof.
  intros png txt jpeg.
  assert (Hr : readable ([png; txt] ++ [jpeg])).
  { intros file Hin Himg.
    apply elem_of_cons in Hin as [->|Hin]; [by eexists|].
    apply elem_of_cons in Hin as [->|Hin]; [vm_compute in Himg; discriminate|].
    apply list_elem_of_singleton in Hin as ->. by eexists. }
  split; [exact Hr|].
  exact (processFiles_app [png; txt] [jpeg] gallery Hr).
Defined.

(** ** The selection buttons *)

Lemma toggle_twice (label : jsstring) (current : option jsstring) :
  toggle label (toggle label current)
  = match current with
    | Some c => if bool_decide (c = label) then current else None
    | None => None
    end.
Proof.
  destruct current as [c|]; simpl.
  - case_bool_decide as Hc; simpl; [by subst|]. by rewrite bool_decide_true.
  - by rewrite bool_decide_true.
Qed.

(** X8.  Pressing the same style, palette or atmosphere button twice
    brings back the state there was when nothing or that label was
    selected; when another label was selected, the second press leaves
    nothing selected.  No other cell of the state changes. *)
Theorem handleSelect_twice (label : jsstring) (st : State) :
  let restored (current : option jsstring) :=
    match current with
    | Some c => if bool_decide (c = label) then current else None
    | None => None
    end in
  handleSelectStyle label (handleSelectStyle label st)
  = setSelectedStyle (restored (selectedStyle st)) st
  ∧ handleSelectColorPalette label (handleSelectColorPalette label st)
    = setSelectedColorPalette (restored (selectedColorPalette st)) st
  ∧ handleSelectAtmosphere label (handleSelectAtmosphere label st)
    = setSelectedAtmosphere (restored (selectedAtmosphere st)) st
  ∧ (selectedStyle st = None ∨ selectedStyle st = Some label →
     handleSelectStyle label (handleSelectStyle label st) = st)
  ∧ (selectedColorPalette st = None ∨ selectedColorPalette st = Some label →
     handleSelectColorPalette label (handleSelectColorPalette label st) = st)
  ∧ (selectedAtmosphere st = None ∨ selectedAtmosphere st = Some label →
     handleSelectAtmosphere label (handleSelectAtmosphere label st) = st).
Proof.
  intros restored.
  assert (Hstyle : handleSelectStyle label (handleSelectStyle label st)
                   = setSelectedStyle (restored (selectedStyle st)) st).
  { unfold handleSelectStyle. destruct st; cbn -[toggle]. by rewrite toggle_twice. }
  assert (Hpalette : handleSelectColorPalette label (handleSelectColorPalette label st)
                     = setSelectedColorPalette (restored (selectedColorPalette st)) st).
  { unfold handleSelectColorPalette. destruct st; cbn -[toggle]. by rewrite toggle_twice. }
  assert (Hatmosphere : handleSelectAtmosphere label (handleSelectAtmosphere label st)
                        = setSelectedAtmosphere (restored (selectedAtmosphere st)) st).
  { unfold handleSelectAtmosphere. destruct st; cbn -[toggle]. by rewrite toggle_twice. }
  split; [exact Hstyle|]. split; [exact Hpalette|]. split; [exact Hatmosphere|].
  rewrite Hstyle, Hpalette, Hatmosphere. unfold restored.
  split; [|split]; intros [E|E]; rewrite E; destruct st; simpl in *; subst;
    rewrite ?bool_decide_true by done; reflexivity.
Qed.

(** ** The message parser: which texts match *)

(** A group followed by [rest] matches whenever some run without line
    terminators is followed by a match of [rest]. *)
Lemma lazyDots_complete (rest : jsstring → option (list jsstring * nat))
    (taken g s : jsstring) :
  oneLine g → is_Some (rest s) → is_Some (lazyDots rest taken (g ++ s)).
Proof.
  unfold oneLine. revert taken. induction g as [|c g IH]; intros taken Hg Hrest.
  - simpl. destruct s as [|d s]; simpl; destruct Hrest as [[gs n] ->]; done.
  - simpl in Hg. apply andb_prop in Hg as [Hc Hg]. apply negb_true_iff in Hc.
    cbn [app lazyDots]. destruct (rest (c :: g ++ s)) as [[gs n]|]; [done|].
    rewrite Hc. by apply IH.
Qed.

Lemma greedyDots_complete (rest : jsstring → option (list jsstring * nat))
    (taken g s : jsstring) :
  oneLine g → is_Some (rest s) → is_Some (greedyDots rest taken (g ++ s)).
Proof.
  unfold oneLine. revert taken. induction g as [|c g IH]; intros taken Hg Hrest.
  - simpl. destruct Hrest as [[gs n] Hrest].
    destruct s as [|d s]; cbn [greedyDots]; rewrite Hrest; [done|].
    destruct (isLineTerminator d); [done|].
    by destruct (greedyDots rest (taken ++ [d]) s).
  - simpl in Hg. apply andb_prop in Hg as [Hc Hg]. apply negb_true_iff in Hc.
    cbn [app greedyDots]. rewrite Hc.
    destruct (IH (taken ++ [c]) Hg Hrest) as [r ->]. done.
Qed.

Lemma matchHere_complete (pattern : list token) (gs : list jsstring) (rest : jsstring) :
  Forall oneLine gs → length gs = groupCount pattern →
  is_Some (matchHere pattern (instantiate pattern gs ++ rest)).
Proof.
  revert gs. induction pattern as [|[l| |] pattern IH]; intros gs Hgs Hlen.
  - done.
  - cbn [instantiate matchHere groupCount] in *. rewrite <- app_assoc.
    rewrite startsWith_app, drop_app_length.
    by destruct (IH gs Hgs Hlen) as [[gs' n] ->].
  - destruct gs as [|g gs]; [done|]. cbn [instantiate matchHere]. rewrite <- app_assoc.
    apply Forall_cons_1 in Hgs as [Hg Hgs].
    apply lazyDots_complete; [done|]. apply IH; [done|]. simpl in Hlen. lia.
  - destruct gs as [|g gs]; [done|]. cbn [instantiate matchHere]. rewrite <- app_assoc.
    apply Forall_cons_1 in Hgs as [Hg Hgs].
    apply greedyDots_complete; [done|]. apply IH; [done|]. simpl in Hlen. lia.
Qed.

Lemma instantiate_shoppingLink (name url description : jsstring) :
  instantiate shoppingLinkRegex [name; url; description] = itemText name url description.
Proof. unfold itemText, shoppingLinkRegex. cbn [instantiate]. by rewrite app_nil_r. Qed.

(** The pattern matches at [k] exactly when a well-formed reference starts
    there. *)
Lemma matchHere_wellFormedAt (text : jsstring) (k : nat) :
  wellFormedAt text k ↔ is_Some (matchHere shoppingLinkRegex (drop k text)).
Proof.
  split.
  - intros (name & url & d & rest & Hn & Hu & Hd & ->).
    rewrite <- instantiate_shoppingLink. apply matchHere_complete; [|done].
    by repeat constructor.
  - intros [[gs n] E].
    pose proof (matchHere_sound _ _ _ _ E) as (_ & _ & _ & Hgs).
    apply matchHere_shoppingLink in E as (name & url & d & -> & Ht & _).
    apply Forall_cons_1 in Hgs as [Hn [Hu [Hd _]%Forall_cons_1]%Forall_cons_1].
    exists name, url, d, (drop n (drop k text)).
    split; [done|]. split; [done|]. split; [done|].
    by rewrite <- Ht, take_drop.
Qed.

(** [search] returns the leftmost position at which the pattern matches. *)
Lemma search_leftmost (s : jsstring) (i : nat) :
  match search shoppingLinkRegex s i with
  | Some m =>
      ∃ k, index m = i + k
           ∧ is_Some (matchHere shoppingLinkRegex (drop k s))
           ∧ ∀ j, j < k → matchHere shoppingLinkRegex (drop j s) = None
  | None => ∀ j, matchHere shoppingLinkRegex (drop j s) = None
  end.
Proof.
  revert i. induction s as [|c s IH]; intros i; cbn [search].
  - destruct (matchHere shoppingLinkRegex []) as [[gs n]|] eqn:E.
    + exists 0. cbn [index]. split; [lia|]. split; [by rewrite drop_0, E|]. lia.
    + intros j. by rewrite drop_nil.
  - destruct (matchHere shoppingLinkRegex (c :: s)) as [[gs n]|] eqn:E.
    + exists 0. cbn [index]. split; [lia|]. split; [by rewrite drop_0, E|]. lia.
    + specialize (IH (S i)). destruct (search shoppingLinkRegex s (S i)) as [m|].
      * destruct IH as (k & Hi & Hk & Hleft). exists (S k).
        split; [lia|]. split; [exact Hk|].
        intros [|j] Hj; [by rewrite drop_0|]. apply Hleft. lia.
      * intros [|j]; [by rewrite drop_0|]. apply IH.
Qed.

Lemma exec_leftmost (text : jsstring) (from : nat) (m : Match) :
  exec shoppingLinkRegex text from = Some m →
  wellFormedAt text (index m)
  ∧ ∀ j, from ≤ j < index m → ¬ wellFormedAt text j.
Proof.
  unfold exec. destruct (Nat.leb_spec from (length text)) as [Hle|?]; [|done].
  intros E. pose proof (search_leftmost (drop from text) from) as H.
  rewrite E in H. destruct H as (k & -> & Hk & Hleft). split.
  - apply matchHere_wellFormedAt. by rewrite drop_drop in Hk.
  - intros j Hj [r Hr]%matchHere_wellFormedAt.
    specialize (Hleft (j - from) ltac:(lia)). rewrite drop_drop in Hleft.
    replace (from + (j - from)) with j in Hleft by lia. congruence.
Qed.

Lemma exec_none (text : jsstring) (from : nat) :
  from ≤ length text →
  exec shoppingLinkRegex text from = None →
  ∀ j, from ≤ j → ¬ wellFormedAt text j.
Proof.
  unfold exec. destruct (Nat.leb_spec from (length text)) as [Hle|?]; [|lia].
  intros _ E j Hj [r Hr]%matchHere_wellFormedAt.
  pose proof (search_leftmost (drop from text) from) as H. rewrite E in H.
  specialize (H (j - from)). rewrite drop_drop in H.
  replace (from + (j - from)) with j in H by lia. congruence.
Qed.

(** What a match captures, and where. *)
Lemma exec_captures (text : jsstring) (from : nat) (m : Match) :
  exec shoppingLinkRegex text from = Some m →
  ∃ name url description,
    groups m = [name; url; description]
    ∧ oneLine name ∧ oneLine url ∧ oneLine description
    ∧ substring text (index m) (Some (lastIndex m)) = itemText name url description.
Proof.
  unfold exec. destruct (Nat.leb_spec from (length text)) as [Hle|?]; [|done].
  intros E. pose proof (search_groups _ _ _ E) as Hg.
  apply search_sound in E as (k & name & url & d & Hi & _ & Hgs & Ht).
  rewrite Hgs in Hg.
  apply Forall_cons_1 in Hg as [Hn [Hu [Hd _]%Forall_cons_1]%Forall_cons_1].
  exists name, url, d. split; [done|]. split; [done|]. split; [done|]. split; [done|].
  unfold substring. rewrite drop_drop, <- Hi in Ht. exact Ht.
Qed.

Lemma scan_step (text : jsstring) (from : nat) :
  scan text from []
  = match exec shoppingLinkRegex text from with
    | Some m =>
        (if from <? index m then [Str (substring text from (Some (index m)))] else [])
        ++ shoppingItem m :: scan text (lastIndex m) []
    | None => if from <? length text then [Str (substring text from None)] else []
    end.
Proof.
  destruct (exec shoppingLinkRegex text from) as [m|] eqn:E.
  - rewrite (scan_match _ _ _ _ E), scan_app. simpl. by rewrite <- app_assoc.
  - by rewrite scan_no_match.
Qed.

Lemma ParsedMessage_scan (message : ChatMessage) :
  role message = model →
  is_Some (exec shoppingLinkRegex (text message) 0) →
  ParsedMessage message = map render (scan (text message) 0 []).
Proof.
  intros Hr [m E]. unfold ParsedMessage. by rewrite Hr, (exec_includes _ _ _ E).
Qed.

Lemma ParsedMessage_literal (message : ChatMessage) :
  role message = model →
  exec shoppingLinkRegex (text message) 0 = None →
  ParsedMessage message = [Lines (split_lines (text message))].
Proof.
  intros Hr Hnone. unfold ParsedMessage. rewrite Hr. simpl.
  destruct (includes (text message) (js "- **[")) eqn:Hinc; simpl; [|done].
  rewrite scan_no_match by done. simpl.
  assert (text message ≠ []) by (by apply (includes_nonempty _ _ Hinc)).
  destruct (text message) as [|c s] eqn:Ht; [done|]. simpl. reflexivity.
Qed.

(** ** The message parser: what is rendered *)

(** C7.  What is rendered for a message depends on its role and text only.
    A user message is never scanned: it is rendered as its text, line by
    line.  So is a model message in which the pattern has no match, that
    is, in which no well-formed reference starts anywhere.  The reply
    ["- **[Sofa](http://x)** - Grey linen sofa"] is rendered as exactly
    one shopping item, with name [Sofa], url [http://x] and description
    [Grey linen sofa]; the literal text around the match is empty, and no
    node is produced for it.  For every message the nodes, read in order,
    give back the text: a literal run is kept as it is, and an item stands
    for the text it matched.

    A model message in which a well-formed reference starts somewhere is
    scanned: the pattern matches, at the leftmost index where such a
    reference starts; what is rendered is the text before the match, when
    there is any, then the item with the captured name, url and
    description, which are the three groups of the matched text, then
    what the scan gives from the end of the match on.  From any index
    the scan goes on in the same way: with a match from there on, the
    text up to it, its item and the scan after it; without one, the text
    that is left, when there is any.  A match from an index is the
    leftmost well-formed reference that starts at or after it, and there
    is none exactly when no well-formed reference starts there or
    later. *)
Theorem ParsedMessage_segments :
  (∀ m1 m2, role m1 = role m2 → text m1 = text m2 → ParsedMessage m1 = ParsedMessage m2)
  ∧ (∀ m, role m = user → ParsedMessage m = [Lines (split_lines (text m))])
  ∧ (∀ m, role m = model → exec shoppingLinkRegex (text m) 0 = None →
       ParsedMessage m = [Lines (split_lines (text m))])
  ∧ (∀ i, ParsedMessage {| id_ := i; role := model; text := sofaReply |}
          = [Item (js "Sofa") (js "http://x") (js "Grey linen sofa")])
  ∧ (∀ m, concat (map nodeText (ParsedMessage m)) = text m)
  ∧ (∀ m, role m = model → (∀ k, ¬ wellFormedAt (text m) k) →
       ParsedMessage m = [Lines (split_lines (text m))])
  ∧ (∀ m k, role m = model → wellFormedAt (text m) k →
       ∃ m0 name url description,
         exec shoppingLinkRegex (text m) 0 = Some m0
         ∧ index m0 ≤ k
         ∧ wellFormedAt (text m) (index m0)
         ∧ (∀ j, j < index m0 → ¬ wellFormedAt (text m) j)
         ∧ groups m0 = [name; url; description]
         ∧ oneLine name ∧ oneLine url ∧ oneLine description
         ∧ substring (text m) (index m0) (Some (lastIndex m0))
           = itemText name url description
         ∧ ParsedMessage m
           = (if 0 <? index m0
              then [Lines (split_lines (substring (text m) 0 (Some (index m0))))]
              else [])
             ++ Item name url description
                :: map render (scan (text m) (lastIndex m0) []))
  ∧ (∀ text from m0, exec shoppingLinkRegex text from = Some m0 →
       from ≤ index m0 < lastIndex m0 ∧ lastIndex m0 ≤ length text
       ∧ wellFormedAt text (index m0)
       ∧ (∀ j, from ≤ j < index m0 → ¬ wellFormedAt text j)
       ∧ ∃ name url description,
           groups m0 = [name; url; description]
           ∧ oneLine name ∧ oneLine url ∧ oneLine description
           ∧ substring text (index m0) (Some (lastIndex m0))
             = itemText name url description
           ∧ scan text from []
             = (if from <? index m0
                then [Str (substring text from (Some (index m0)))]
                else [])
               ++ ShoppingItem name url description :: scan text (lastIndex m0) [])
  ∧ (∀ text from, from ≤ length text → exec shoppingLinkRegex text from = None →
       (∀ j, from ≤ j → ¬ wellFormedAt text j)
       ∧ scan text from []
         = if from <? length text then [Str (substring text from None)] else []).
Proof.
  assert (Hsome : ∀ text from m0, exec shoppingLinkRegex text from = Some m0 →
    from ≤ index m0 < lastIndex m0 ∧ lastIndex m0 ≤ length text
    ∧ wellFormedAt text (index m0)
    ∧ (∀ j, from ≤ j < index m0 → ¬ wellFormedAt text j)
    ∧ ∃ name url description,
        groups m0 = [name; url; description]
        ∧ oneLine name ∧ oneLine url ∧ oneLine description
        ∧ substring text (index m0) (Some (lastIndex m0))
          = itemText name url description
        ∧ scan text from []
          = (if from <? index m0
             then [Str (substring text from (Some (index m0)))]
             else [])
            ++ ShoppingItem name url description :: scan text (lastIndex m0) []).
  { intros text from m0 E.
    pose proof (exec_bounds _ _ _ E) as (Hfrom & Hidx & Hlast).
    destruct (exec_leftmost _ _ _ E) as [Hwf Hleft].
    destruct (exec_captures _ _ _ E) as (name & url & d & Hg & Hn & Hu & Hd & Ht).
    split; [lia|]. split; [lia|]. split; [exact Hwf|]. split; [exact Hleft|].
    exists name, url, d.
    split; [exact Hg|]. split; [exact Hn|]. split; [exact Hu|]. split; [exact Hd|].
    split; [exact Ht|].
    rewrite scan_step, E. unfold shoppingItem. rewrite Hg. reflexivity. }
  assert (Hnone : ∀ m, role m = model → (∀ k, ¬ wellFormedAt (text m) k) →
    ParsedMessage m = [Lines (split_lines (text m))]).
  { intros m Hr Hno. apply ParsedMessage_literal; [exact Hr|].
    destruct (exec shoppingLinkRegex (text m) 0) as [m0|] eqn:E; [|done].
    destruct (exec_leftmost _ _ _ E) as [Hwf _]. by destruct (Hno (index m0)). }
  split; [|split; [|split; [|split; [|split; [|split; [|split; [|split]]]]]]].
  - intros m1 m2 Hr Ht. unfold ParsedMessage. by rewrite Hr, Ht.
  - intros m Hr. unfold ParsedMessage. by rewrite Hr.
  - apply ParsedMessage_literal.
  - intros i. vm_compute. reflexivity.
  - apply ParsedMessage_text.
  - exact Hnone.
  - intros m k Hr Hk.
    destruct (exec shoppingLinkRegex (text m) 0) as [m0|] eqn:E.
    2:{ destruct (exec_none (text m) 0 ltac:(lia) E k ltac:(lia) Hk). }
    destruct (Hsome _ _ _ E)
      as (_ & _ & Hwf & Hleft & name & url & d & Hg & Hn & Hu & Hd & Ht & Hscan).
    exists m0, name, url, d. split; [reflexivity|].
    split.
    { destruct (Nat.le_gt_cases (index m0) k) as [?|Hlt]; [done|].
      destruct (Hleft k ltac:(lia) Hk). }
    split; [exact Hwf|].
    split; [intros j Hj; apply Hleft; lia|].
    split; [exact Hg|]. split; [exact Hn|]. split; [exact Hu|]. split; [exact Hd|].
    split; [exact Ht|].
    rewrite ParsedMessage_scan by (by rewrite ?E). rewrite Hscan, map_app.
    by destruct (0 <? index m0).
  - exact Hsome.
  - intros text from Hfrom E. split; [by apply exec_none|].
    by rewrite scan_step, E.
Qed.

Lemma ParsedMessage_segments_witness :
  let reply := {| id_ := 1; role := model; text := js "Try - **[Sofa](http://x) next" |} in
  let lamp := {| id_ := 2; role := model;
                 text := js "See:
- **[Lamp](http://l)** - Brass floor lamp
Enjoy" |} in
  (role reply = model ∧ exec shoppingLinkRegex (text reply) 0 = None)
  ∧ ParsedMessage reply = [Lines [js "Try - **[Sofa](http://x) next"]]
  ∧ wellFormedAt (text lamp) 5
  ∧ ∃ m0 name url description,
      exec shoppingLinkRegex (text lamp) 0 = Some m0
      ∧ groups m0 = [name; url; description]
      ∧ ParsedMessage lamp
        = (if 0 <? index m0
           then [Lines (split_lines (substring (text lamp) 0 (Some (index m0))))]
           else [])
          ++ Item name url description
             :: map render (scan (text lamp) (lastIndex m0) []).
Proof.
  intros reply lamp.
  assert (Hr : role reply = model) by reflexivity.
  assert (Hnone : exec shoppingLinkRegex (text reply) 0 = None) by (vm_compute; reflexivity).
  assert (Hwf : wellFormedAt (text lamp) 5).
  { exists (js "Lamp"), (js "http://l"), (js "Brass floor lamp"), (10%N :: js "Enjoy").
    split; [vm_compute; reflexivity|]. split; [vm_compute; reflexivity|].
    split; vm_compute; reflexivity. }
  destruct ParsedMessage_segments as (_ & _ & Hlit & _ & _ & _ & Hitem & _).
  split; [split; [exact Hr | exact Hnone]|].
  split; [rewrite (Hlit reply Hr Hnone); vm_compute; reflexivity|].
  split; [exact Hwf|].
  destruct (Hitem lamp 5 eq_refl Hwf)
    as (m0 & name & url & d & E & _ & _ & _ & Hg & _ & _ & _ & _ & Hp).
  exists m0, name, url, d. split; [exact E|]. split; [exact Hg | exact Hp].
Defined.
